(** * E8 fractal power module

    A shallow embedding of [e8_fractal_power_module.py]: the E8 root table,
    the Cartan torus, the qutrit node states, the control-rate scheduler and
    the additive renderer.

    Modelling conventions.
    - NumPy float arrays are lists of real numbers ([list R]); float32 and
      float64 arithmetic is read as exact real arithmetic, so rounding,
      infinities and NaN are outside the model.
    - Python integers are [Z]; [//] and [%] on integers are [Z.div] and
      [Z.modulo] (both floor towards minus infinity for a positive divisor).
    - Python exceptions are [None] in an [option] result.
    - The NumPy random generator is an abstract owned resource of the engine:
      a state type, a seeding function and a generator of doubles. *)

From Stdlib Require Import String Reals Lra Lia ZArith Bool List.
Import ListNotations.
Open Scope R_scope.

(** ** Arrays of reals *)

Definition vec := list R.

(** [np.zeros(n)] *)
Definition zeros (n : nat) : vec := repeat 0 n.

(** [np.ones(n)] *)
Definition ones (n : nat) : vec := repeat 1 n.

(** [np.dot(a, b)] on one-dimensional arrays. *)
Fixpoint dot (a b : vec) : R :=
  match a, b with
  | x :: a', y :: b' => x * y + dot a' b'
  | _, _ => 0
  end.

(** [np.linalg.norm(v)] *)
Definition norm (v : vec) : R := sqrt (dot v v).

(** [a.sum()] *)
Definition vsum (a : vec) : R := fold_right Rplus 0 a.

(** Elementwise binary operation on arrays of the same shape. *)
Fixpoint map2 {A B C : Type} (f : A -> B -> C) (a : list A) (b : list B) : list C :=
  match a, b with
  | x :: a', y :: b' => f x y :: map2 f a' b'
  | _, _ => []
  end.

(** [a[i]] for reading, with [0] standing for an index out of range (Python
    raises there; engines built by the constructor never reach it). *)
Definition get (a : vec) (i : nat) : R := nth i a 0.

(** [a[i] = x] *)
Fixpoint set {A : Type} (a : list A) (i : nat) (x : A) : list A :=
  match a, i with
  | [], _ => []
  | _ :: a', O => x :: a'
  | y :: a', S i' => y :: set a' i' x
  end.

(** [range(n)] as a list of naturals. *)
Definition range (n : Z) : list nat := seq 0 (Z.to_nat n).

(** [x % y] on floats: the result has the sign of the divisor. *)
Definition fmod (x y : R) : R := x - IZR (Int_part (x / y)) * y.

(** [np.clip(x, lo, hi)] = [minimum(maximum(x, lo), hi)] *)
Definition clip (x lo hi : R) : R := Rmin (Rmax x lo) hi.

(** [int(x)] on a float: truncation towards zero. *)
Definition int_of_float (x : R) : Z :=
  if Rle_dec 0 x then Int_part x else (- Int_part (- x))%Z.

(** [round(x)] on a float: nearest integer, ties to the even one. *)
Definition py_round (x : R) : Z :=
  let f := Int_part x in
  let d := x - IZR f in
  if Rlt_dec d 0.5 then f
  else if Rlt_dec 0.5 d then (f + 1)%Z
  else if Z.even f then f else (f + 1)%Z.

Definition two_pi : R := 2.0 * PI.

(** ** Qutrit state *)

Module QutritState.

Record t : Type := mk { r : vec }.

(** Default factory: [np.zeros(8)]. *)
Definition default : t := mk (zeros 8).

Definition soft_project (self : t) (r_max : R) : t :=
  let n2 := dot (r self) (r self) in
  if Rle_dec n2 (r_max * r_max) then self
  else
    let n := sqrt n2 in
    let s := r_max * tanh (n / r_max) / (n + 1e-12) in
    mk (map (fun x => x * s) (r self)).

End QutritState.

(** ** E8 root system *)

Definition is2 : R := 1.0 / sqrt 2.0.

(** Family A: for [i < j] and signs [s0], [s1], the vector with [s0 * is2] at
    [i] and [s1 * is2] at [j]. *)
Definition family_A : list vec :=
  flat_map (fun i =>
    flat_map (fun j =>
      flat_map (fun s0 =>
        map (fun s1 => set (set (zeros 8) i (s0 * is2)) j (s1 * is2))
            [-1.0; 1.0])
        [-1.0; 1.0])
      (seq (i + 1) (8 - (i + 1))))
    (seq 0 8).

(** The inner loop over the eight bits of [mask]: the array of signs and the
    number of minus signs.  ([np.empty(8)] is read as an array whose eight
    entries are all overwritten by the loop.) *)
Definition sign_pattern (mask : Z) : vec * Z :=
  fold_left
    (fun (acc : vec * Z) (b : nat) =>
       let (vals, minus) := acc in
       let bit := Z.land (Z.shiftr mask (Z.of_nat b)) 1 in
       if (bit =? 0)%Z then (set vals b 0.5, minus)
       else (set vals b (-0.5), (minus + 1)%Z))
    (seq 0 8) (zeros 8, 0%Z).

(** The loop over the masks, with its [break] once 240 roots are collected. *)
Fixpoint family_B_loop (masks : list Z) (roots : list vec) : list vec :=
  match masks with
  | [] => roots
  | mask :: rest =>
      let (vals, minus) := sign_pattern mask in
      if (minus mod 2 =? 0)%Z then
        let n := norm vals in
        let vals := if Rlt_dec 0 n then map (fun x => x / n) vals else vals in
        let roots := roots ++ [vals] in
        if (length roots =? 240)%nat then roots else family_B_loop rest roots
      else family_B_loop rest roots
  end.

(** [roots.shape == (rows, cols)] for a stack of rows. *)
Definition has_shape (roots : list vec) (rows cols : nat) : bool :=
  (length roots =? rows)%nat && forallb (fun v => (length v =? cols)%nat) roots.

(** [None] stands for the failed assertion on the shape. *)
Definition generate_e8_roots : option (list vec) :=
  let roots := family_B_loop (map Z.of_nat (seq 0 256)) family_A in
  if has_shape roots 240 8 then Some roots else None.

(** ** Cartan torus *)

Module E8Torus.

Record t : Type := mk { theta : vec; omega : vec }.

Definition default : t := mk (zeros 8) (zeros 8).

Definition advance (self : t) (dt : R) : t :=
  mk (map2 (fun th om => fmod (th + om * dt) two_pi) (theta self) (omega self))
     (omega self).

Definition phases (self : t) (roots : list vec) : vec :=
  map (fun root => dot root (theta self)) roots.

End E8Torus.

(** ** Macros *)

Record Macros : Type := mkMacros {
  CosmicDepth : Z;
  PhiDrift : R;
  CoxeterPhase : R;
  EntropyBloom : R;
  TernaryBias : R;
  PhaseGain : R;
  AmpGain : R;
  EnergyFlow : R;
  SpatialWarp : R
}.

Definition default_macros : Macros :=
  mkMacros 5 0.02 0.0 0.02 0.10 0.25 0.20 1.00 0.00.

(** One [setattr(self.macros, k, type(getattr(self.macros, k))(v))]; a name
    that is not a field is ignored. *)
Definition set_macro (m : Macros) (k : string) (v : R) : Macros :=
  let 'mkMacros cd pd cp eb tb pg ag ef sw := m in
  if String.eqb k "CosmicDepth" then mkMacros (int_of_float v) pd cp eb tb pg ag ef sw
  else if String.eqb k "PhiDrift" then mkMacros cd v cp eb tb pg ag ef sw
  else if String.eqb k "CoxeterPhase" then mkMacros cd pd v eb tb pg ag ef sw
  else if String.eqb k "EntropyBloom" then mkMacros cd pd cp v tb pg ag ef sw
  else if String.eqb k "TernaryBias" then mkMacros cd pd cp eb v pg ag ef sw
  else if String.eqb k "PhaseGain" then mkMacros cd pd cp eb tb v ag ef sw
  else if String.eqb k "AmpGain" then mkMacros cd pd cp eb tb pg v ef sw
  else if String.eqb k "EnergyFlow" then mkMacros cd pd cp eb tb pg ag v sw
  else if String.eqb k "SpatialWarp" then mkMacros cd pd cp eb tb pg ag ef v
  else m.

(** ** Sparse coupling *)

(** [None] stands for the division by zero in [240 // roots_per_node]. *)
Definition _choose_sparse_roots_per_node (num_nodes roots_per_node : Z)
  : option (list (list Z)) :=
  if (roots_per_node =? 0)%Z then None
  else
    let stride := (240 / roots_per_node)%Z in
    Some (map (fun i =>
                 let offset := ((Z.of_nat i * 17) mod 240)%Z in
                 map (fun j => ((offset + Z.of_nat j * stride) mod 240)%Z)
                     (range roots_per_node))
              (range num_nodes)).

(** ** Notions used in the statements *)

(** Boolean test that two index lists share no element. *)
Definition disjointb (a b : list Z) : bool :=
  forallb (fun x => negb (existsb (Z.eqb x) b)) a.

(** Boolean test that every pair of distinct positions of a table holds
    disjoint lists. *)
Fixpoint pairwise_disjointb (t : list (list Z)) : bool :=
  match t with
  | [] => true
  | a :: rest => forallb (disjointb a) rest && pairwise_disjointb rest
  end.

Fixpoint nodupb (l : list Z) : bool :=
  match l with
  | [] => true
  | x :: rest => negb (existsb (Z.eqb x) rest) && nodupb rest
  end.

(** The axis pairs [i < j] in the order of generation. *)
Definition axis_pairs : list (nat * nat) :=
  flat_map (fun i => map (pair i) (seq (i + 1) (7 - i))) (seq 0 8).

Definition sign_pairs : list (R * R) :=
  [(-1.0, -1.0); (-1.0, 1.0); (1.0, -1.0); (1.0, 1.0)].

(** The vector with [s0 / sqrt 2] on axis [i], [s1 / sqrt 2] on axis [j] and
    zero elsewhere. *)
Definition axis_pair_vector (i j : nat) (s0 s1 : R) : vec :=
  map (fun k => if (k =? i)%nat then s0 * is2
                else if (k =? j)%nat then s1 * is2 else 0)
      (seq 0 8).

(** Exactly two nonzero components, each of magnitude [1 / sqrt 2]. *)
Definition two_nonzero (v : vec) : Prop :=
  exists i j, (i < j < 8)%nat /\
    Rabs (get v i) = 1 / sqrt 2 /\ Rabs (get v j) = 1 / sqrt 2 /\
    forall k, k <> i -> k <> j -> get v k = 0.

(** The sign pattern of an 8-bit mask: [-0.5] where the bit is set. *)
Definition half_pattern (mask : Z) : vec :=
  map (fun b => if Z.testbit mask (Z.of_nat b) then -0.5 else 0.5) (seq 0 8).

(** Number of minus signs of the pattern. *)
Definition minus_signs (mask : Z) : Z :=
  fold_right (fun b n => if Z.testbit mask (Z.of_nat b) then (n + 1)%Z else n)
             0%Z (seq 0 8).

(** The masks with an even number of minus signs, in ascending order. *)
Definition even_masks : list Z :=
  filter (fun m => Z.even (minus_signs m)) (map Z.of_nat (seq 0 256)).

(** A sign pattern divided by its norm. *)
Definition unit_pattern (mask : Z) : vec :=
  map (fun x => x / norm (half_pattern mask)) (half_pattern mask).


(** The macros read by the control step and by the renderer. *)
Definition active (m : Macros) : R * R * R * R * R * R * R :=
  (PhiDrift m, CoxeterPhase m, EntropyBloom m, TernaryBias m, PhaseGain m,
   AmpGain m, EnergyFlow m).

(** [m] with other values of CosmicDepth and SpatialWarp. *)
Definition with_inert_macros (m : Macros) (cosmic_depth : Z) (spatial_warp : R)
  : Macros :=
  mkMacros cosmic_depth (PhiDrift m) (CoxeterPhase m) (EntropyBloom m)
           (TernaryBias m) (PhaseGain m) (AmpGain m) (EnergyFlow m) spatial_warp.

(** ** Random generator *)

(** The interface of [np.random.default_rng]: seeding, and the next double
    of the stream together with the advanced state. *)
Class Generator : Type := {
  rng_state : Type;
  default_rng : Z -> rng_state;
  random : rng_state -> R * rng_state
}.

(** [rng.uniform(low, high, size)]: [low + (high - low) * random()] drawn
    [size] times in sequence. *)
Fixpoint uniform `{Generator} (low high : R) (size : nat) (g : rng_state)
  : vec * rng_state :=
  match size with
  | O => ([], g)
  | S k =>
      let (u, g1) := random g in
      let (rest, g2) := uniform low high k g1 in
      (low + (high - low) * u :: rest, g2)
  end.

(** A small linear congruential generator, to run the engine on a concrete
    stream. *)
Definition lcg : Generator := {|
  rng_state := Z;
  default_rng := fun seed => seed;
  random := fun g =>
    (IZR (g mod 1024) / 1024, ((g * 1103515245 + 12345) mod 2147483648)%Z)
|}.

(** ** The engine *)

Record E8FractalPowerModule `{Generator} : Type := mkEngine {
  num_nodes : Z;
  sample_rate : R;
  control_rate : R;
  macros : Macros;
  rng : rng_state;
  roots : list vec;
  torus : E8Torus.t;
  qs : list QutritState.t;
  sparse_idx : list (list Z);
  _dphi : vec;
  _damp : vec;
  _morph : vec;
  _node_phase : vec;
  _base_freq : vec;
  _samples_per_control : Z;
  _sample_counter : Z
}.

Arguments mkEngine {_}.

Section Engine.

Context `{G : Generator}.

Implicit Types self : E8FractalPowerModule.

(** Field assignments. *)
Definition with_macros self (m : Macros) : E8FractalPowerModule :=
  mkEngine (num_nodes self) (sample_rate self) (control_rate self) m
    (rng self) (roots self) (torus self) (qs self) (sparse_idx self)
    (_dphi self) (_damp self) (_morph self) (_node_phase self)
    (_base_freq self) (_samples_per_control self) (_sample_counter self).

Definition with_torus_rng self (t : E8Torus.t) (g : rng_state)
  : E8FractalPowerModule :=
  mkEngine (num_nodes self) (sample_rate self) (control_rate self)
    (macros self) g (roots self) t (qs self) (sparse_idx self)
    (_dphi self) (_damp self) (_morph self) (_node_phase self)
    (_base_freq self) (_samples_per_control self) (_sample_counter self).

Definition with_node self (q : list QutritState.t)
  (dphi damp morph : vec) : E8FractalPowerModule :=
  mkEngine (num_nodes self) (sample_rate self) (control_rate self)
    (macros self) (rng self) (roots self) (torus self) q (sparse_idx self)
    dphi damp morph (_node_phase self)
    (_base_freq self) (_samples_per_control self) (_sample_counter self).

Definition with_node_phase self (p : vec) : E8FractalPowerModule :=
  mkEngine (num_nodes self) (sample_rate self) (control_rate self)
    (macros self) (rng self) (roots self) (torus self) (qs self)
    (sparse_idx self) (_dphi self) (_damp self) (_morph self) p
    (_base_freq self) (_samples_per_control self) (_sample_counter self).

Definition with_sample_counter self (c : Z) : E8FractalPowerModule :=
  mkEngine (num_nodes self) (sample_rate self) (control_rate self)
    (macros self) (rng self) (roots self) (torus self) (qs self)
    (sparse_idx self) (_dphi self) (_damp self) (_morph self)
    (_node_phase self) (_base_freq self) (_samples_per_control self) c.

(** [__init__].  [None] stands for an exception raised by the constructor:
    the failed shape assertion of the root table, [np.zeros] of a negative
    size, [np.max] of an empty array, or the division by a zero control
    rate. *)
Definition init (num_nodes : Z) (sample_rate control_rate : R) (seed : Z)
  : option E8FractalPowerModule :=
  match generate_e8_roots with
  | None => None
  | Some roots =>
      match _choose_sparse_roots_per_node num_nodes 12 with
      | None => None
      | Some sparse =>
          let n := Z.to_nat num_nodes in
          let phi := (1 + sqrt 5) * 0.5 in
          let ratios :=
            map (fun i => powerRZ phi (Z.of_nat i - num_nodes / 2))
                (range num_nodes) in
          match ratios with
          | [] => None
          | r0 :: rs =>
              let top := fold_left Rmax rs r0 in
              if Req_dec_T control_rate 0 then None
              else
                Some (mkEngine num_nodes sample_rate control_rate
                        default_macros (default_rng seed) roots
                        E8Torus.default (repeat QutritState.default n)
                        sparse (zeros n) (ones n) (zeros n) (zeros n)
                        (map (fun x => 110.0 * (x / top)) ratios)
                        (Z.max 1 (py_round (sample_rate / control_rate)))
                        0%Z)
          end
      end
  end.

Definition _apply_torus_macros self : E8FractalPowerModule :=
  let drift := PhiDrift (macros self) in
  let base := map (fun k => drift * (0.6 + 0.1 * INR k)) (seq 0 8) in
  let omega := base in
  let cp := CoxeterPhase (macros self) in
  let theta := E8Torus.theta (torus self) in
  let theta := set theta 0 (fmod (get theta 0 + 0.001 * sin cp) two_pi) in
  let theta := set theta 1 (fmod (get theta 1 + 0.001 * cos cp) two_pi) in
  let e := EntropyBloom (macros self) in
  if Rlt_dec 1e-6 e then
    let (u1, g1) := uniform (-0.05) 0.05 8 (rng self) in
    let omega := map2 (fun o u => o + e * u) omega u1 in
    let (u2, g2) := uniform (-0.002) 0.002 8 g1 in
    let theta := map2 (fun t u => fmod (t + e * u) two_pi) theta u2 in
    with_torus_rng self (E8Torus.mk theta omega) g2
  else
    with_torus_rng self (E8Torus.mk theta omega) (rng self).

Definition set_macros self (overrides : list (string * R))
  : E8FractalPowerModule :=
  with_macros self
    (fold_left (fun m kv => set_macro m (fst kv) (snd kv)) overrides
               (macros self)).

(** The body of the loop over the nodes in [control_step]. *)
Definition control_node (phase_gain amp_gain bias lam dt : R) (ph_all : vec)
  self (i : nat) : E8FractalPowerModule :=
  let idx := nth i (sparse_idx self) [] in
  let ph := map (fun k => get ph_all (Z.to_nat k)) idx in
  let s := vsum (map sin ph) in
  let c := vsum (map cos ph) in
  let norm := 1.0 / IZR (Z.max 1 (Z.of_nat (length idx))) in
  let dphi := set (_dphi self) i (phase_gain * s * norm) in
  let damp := set (_damp self) i (clip (1.0 + amp_gain * c * norm) 0.0 4.0) in
  let theta := E8Torus.theta (torus self) in
  let drive0 := 0.5 * sin (get theta 0) + 0.5 * sin (get theta 1) in
  let drive1 := 0.5 * cos (get theta 2) + 0.5 * cos (get theta 3) in
  let r := QutritState.r (nth i (qs self) QutritState.default) in
  let r := set r 0 (get r 0 + dt * (- lam * get r 0 + drive0 + bias)) in
  let r := set r 3 (get r 3 + dt * (- lam * get r 3 + drive1 - 0.5 * bias)) in
  let r := set r 7 (get r 7 + dt * (- lam * get r 7
                                   + 0.25 * (drive0 + drive1) - 0.5 * bias)) in
  let mag := sqrt (get r 0 ^ 2 + get r 3 ^ 2 + get r 7 ^ 2) in
  let morph := set (_morph self) i (clip (0.5 * mag) 0.0 1.0) in
  let q := QutritState.soft_project (QutritState.mk r) 1.2 in
  with_node self (set (qs self) i q) dphi damp morph.

Definition control_step self : E8FractalPowerModule :=
  let self := _apply_torus_macros self in
  let dt := 1.0 / control_rate self in
  let self :=
    with_torus_rng self (E8Torus.advance (torus self) dt) (rng self) in
  let ph_all := E8Torus.phases (torus self) (roots self) in
  let phase_gain := PhaseGain (macros self) in
  let amp_gain := AmpGain (macros self) in
  let bias := TernaryBias (macros self) in
  let lam := 0.8 in
  fold_left (control_node phase_gain amp_gain bias lam dt ph_all)
            (range (num_nodes self)) self.

(** The [while remaining > 0] loop, with the number of control steps fired
    so far as an outcome next to the engine.  [fuel] bounds the number of
    iterations; [None] is fuel exhaustion. *)
Fixpoint control_loop (fuel : nat) self (remaining : Z)
  (ticks : nat) : option (E8FractalPowerModule * nat) :=
  if (remaining >? 0)%Z then
    match fuel with
    | O => None
    | S fuel' =>
        let step :=
          Z.min (_samples_per_control self - _sample_counter self) remaining in
        let self := with_sample_counter self (_sample_counter self + step) in
        let remaining := (remaining - step)%Z in
        if (_sample_counter self >=? _samples_per_control self)%Z then
          let self := with_sample_counter self 0 in
          control_loop fuel' (control_step self) remaining (S ticks)
        else control_loop fuel' self remaining ticks
    end
  else Some (self, ticks).

(** Every iteration consumes at least one sample when the counter is below
    the threshold, so [num_samples] iterations are enough. *)
Definition process_control_for_samples self (num_samples : Z)
  : option (E8FractalPowerModule * nat) :=
  control_loop (Z.to_nat num_samples) self num_samples 0.

Definition _morph_wave (phase : list vec) (morph : vec) : list vec :=
  map2 (fun row m =>
          map (fun ph =>
                 let s := sin ph in
                 let tri := (2 / PI) * asin (sin ph) in
                 (1.0 - m) * s + m * tri)
              row)
       phase morph.

(** [sig.sum(axis=0)] for [N] columns. *)
Definition sum_axis0 (N : nat) (sig : list vec) : vec :=
  map (fun t => vsum (map (fun row => get row t) sig)) (seq 0 N).

(** [render]: the engine after the call, the number of control steps it
    fired, and the two channels.  [None] stands for an exception:
    [np.zeros] of a negative size or the division by a zero sample rate. *)
Definition render self (num_samples : Z) (base_gain : R)
  : option (E8FractalPowerModule * nat * (vec * vec)) :=
  let N := num_samples in
  if (N <? 0)%Z then None
  else if Req_dec_T (sample_rate self) 0 then None
  else
    let k := two_pi / sample_rate self in
    match process_control_for_samples self N with
    | None => None
    | Some (self, ticks) =>
        let dphi_hz := map (fun d => d / two_pi) (_dphi self) in
        let amp := map (fun a => base_gain * a) (_damp self) in
        let freq :=
          map2 (fun b d => clip (b + d) 1.0 20000.0) (_base_freq self) dphi_hz in
        let phase_inc := map (fun f => k * f) freq in
        let t_idx := map INR (seq 0 (Z.to_nat N)) in
        let phase_t :=
          map2 (fun p inc => map (fun t => p + inc * t) t_idx)
               (_node_phase self) phase_inc in
        let morph := _morph self in
        let sig :=
          map2 (fun row a => map (fun x => x * a) row)
               (_morph_wave phase_t morph) amp in
        let node_phase :=
          map2 (fun p inc => fmod (p + inc * IZR N) two_pi)
               (_node_phase self) phase_inc in
        let pan := 0.5 + 0.5 * sin (get (E8Torus.theta (torus self)) 4) in
        let left_mix := 1.0 - pan in
        let right_mix := pan in
        let mix := sum_axis0 (Z.to_nat N) sig in
        let L := map (fun x => left_mix * x) mix in
        let R := map (fun x => right_mix * x) mix in
        let gain := EnergyFlow (macros self) in
        let L := map (fun x => x * gain) L in
        let R := map (fun x => x * gain) R in
        let L := map tanh L in
        let R := map tanh R in
        Some (with_node_phase self node_phase, ticks, (L, R))
    end.

(** A call on the public interface. *)
Inductive call : Type :=
| SetMacros (overrides : list (string * R))
| Render (num_samples : Z) (base_gain : R).

(** Drive an engine by a sequence of calls, collecting what every [render]
    returned; [None] as soon as one call raises. *)
Fixpoint run self (calls : list call)
  : option (E8FractalPowerModule * list (vec * vec)) :=
  match calls with
  | [] => Some (self, [])
  | SetMacros overrides :: rest => run (set_macros self overrides) rest
  | Render n g :: rest =>
      match render self n g with
      | None => None
      | Some (self, _, out) =>
          match run self rest with
          | None => None
          | Some (self, outs) => Some (self, out :: outs)
          end
      end
  end.

(** The shape invariant of an engine: what the constructor establishes and
    every call preserves. *)
Record wf (self : E8FractalPowerModule) : Prop := mk_wf {
  wf_theta : length (E8Torus.theta (torus self)) = 8%nat;
  wf_qs : length (qs self) = Z.to_nat (num_nodes self);
  wf_sparse : length (sparse_idx self) = Z.to_nat (num_nodes self);
  wf_sparse_ne : Forall (fun idx => idx <> []) (sparse_idx self);
  wf_dphi : length (_dphi self) = Z.to_nat (num_nodes self);
  wf_damp : length (_damp self) = Z.to_nat (num_nodes self);
  wf_morph : length (_morph self) = Z.to_nat (num_nodes self);
  wf_node_phase : length (_node_phase self) = Z.to_nat (num_nodes self);
  wf_base_freq : length (_base_freq self) = Z.to_nat (num_nodes self);
  wf_phase_range : Forall (fun p => 0 <= p < two_pi) (_node_phase self);
  wf_counter :
    (0 <= _sample_counter self < _samples_per_control self)%Z
}.

(** What a control step keeps: everything but the torus, the generator,
    the node states and the three modulation arrays. *)
Definition same_frame self self' : Prop :=
  num_nodes self' = num_nodes self /\
  sample_rate self' = sample_rate self /\
  control_rate self' = control_rate self /\
  macros self' = macros self /\
  roots self' = roots self /\
  sparse_idx self' = sparse_idx self /\
  _node_phase self' = _node_phase self /\
  _base_freq self' = _base_freq self /\
  _samples_per_control self' = _samples_per_control self /\
  _sample_counter self' = _sample_counter self.

(** The counter is below the threshold: what the constructor establishes and
    every call preserves. *)
Definition counter_ok self : Prop :=
  (0 <= _sample_counter self < _samples_per_control self)%Z.

(** Control steps fired by [n] more samples, and the counter they leave. *)
Definition ticks_for self (n : Z) : nat :=
  Z.to_nat ((_sample_counter self + n) / _samples_per_control self).

Definition counter_after self (n : Z) : Z :=
  ((_sample_counter self + n) mod _samples_per_control self)%Z.

Definition after_samples self (n : Z) : E8FractalPowerModule :=
  with_sample_counter (Nat.iter (ticks_for self n) control_step self)
                      (counter_after self n).

(** A sequence of [render] calls, one per chunk: the engine left by the last
    call and the number of control steps fired by all of them. *)
Fixpoint render_chunks self (chunks : list (Z * R))
  : option (E8FractalPowerModule * nat) :=
  match chunks with
  | [] => Some (self, 0%nat)
  | (n, g) :: rest =>
      match render self n g with
      | None => None
      | Some (self, k, _) =>
          match render_chunks self rest with
          | None => None
          | Some (self, k') => Some (self, (k + k')%nat)
          end
      end
  end.

(** [sum(chunks)] *)
Definition total_samples (chunks : list (Z * R)) : Z :=
  fold_right (fun c acc => (fst c + acc)%Z) 0%Z chunks.


(** Two engines that differ at most in CosmicDepth and SpatialWarp. *)
Definition inert_equiv self1 self2 : Prop :=
  self2 = with_macros self1 (macros self2) /\
  active (macros self1) = active (macros self2).

(** The outcomes of the same calls on two engines agree: both raise, or both
    return the same outputs and engines that differ at most in the inert
    macros. *)
Definition same_outcome {A : Type}
  (o1 o2 : option (E8FractalPowerModule * A)) : Prop :=
  match o1, o2 with
  | Some (self1, a1), Some (self2, a2) => a1 = a2 /\ inert_equiv self1 self2
  | None, None => True
  | _, _ => False
  end.

End Engine.

(** ** Further notions used in the statements *)

(** The state of the generator after [n] draws. *)
Fixpoint skip_draws `{Generator} (n : nat) (g : rng_state) : rng_state :=
  match n with
  | O => g
  | S k => skip_draws k (snd (random g))
  end.

(** The fields of [Macros], by name. *)
Definition macro_names : list string :=
  ["CosmicDepth"; "PhiDrift"; "CoxeterPhase"; "EntropyBloom"; "TernaryBias";
   "PhaseGain"; "AmpGain"; "EnergyFlow"; "SpatialWarp"]%string.

(** [getattr(self.macros, k)] read as a float; [None] when [hasattr] is
    false. *)
Definition macro_value (m : Macros) (k : string) : option R :=
  if String.eqb k "CosmicDepth" then Some (IZR (CosmicDepth m))
  else if String.eqb k "PhiDrift" then Some (PhiDrift m)
  else if String.eqb k "CoxeterPhase" then Some (CoxeterPhase m)
  else if String.eqb k "EntropyBloom" then Some (EntropyBloom m)
  else if String.eqb k "TernaryBias" then Some (TernaryBias m)
  else if String.eqb k "PhaseGain" then Some (PhaseGain m)
  else if String.eqb k "AmpGain" then Some (AmpGain m)
  else if String.eqb k "EnergyFlow" then Some (EnergyFlow m)
  else if String.eqb k "SpatialWarp" then Some (SpatialWarp m)
  else None.

(** The sample counts of the [render] calls of a sequence of calls. *)
Definition requested_sizes (calls : list call) : list nat :=
  flat_map (fun c => match c with
                     | Render n _ => [Z.to_nat n]
                     | SetMacros _ => []
                     end) calls.

(** [np.max(a)]; [None] stands for the error on an empty array. *)
Definition amax (a : vec) : option R :=
  match a with
  | [] => None
  | x :: rest => Some (fold_left Rmax rest x)
  end.

(** The conversion of the two rendered channels to 16-bit PCM frames in
    [demo_to_wav] (the writing of the file is not modelled): the channels
    are stacked, scaled so that the peak is 0.9 of full scale, and cast to
    integers, which drops the fractional part.  [None] stands for the
    errors of [np.stack] on channels of different lengths and of [np.max]
    on an empty array. *)
Definition pcm_frames (left right : vec) : option (list (Z * Z)) :=
  if negb (length left =? length right)%nat then None
  else
    let data := combine left right in
    match amax (flat_map (fun f => [Rabs (fst f); Rabs (snd f)]) data) with
    | None => None
    | Some top =>
        let peak := Rmax 1e-9 top in
        Some (map (fun f =>
                     (int_of_float (fst f / peak * 0.9 * 32767.0),
                      int_of_float (snd f / peak * 0.9 * 32767.0)))
                  data)
    end.

(** ** The synthesis part of [render] *)

(** The phase increments per sample that [render] derives from the base
    frequencies and the phase modulation, for [k = 2 pi / sample_rate]. *)
Definition phase_incs `{Generator} (k : R) (self : E8FractalPowerModule) : vec :=
  map (fun f => k * f)
      (map2 (fun b d => clip (b + d) 1.0 20000.0) (_base_freq self)
            (map (fun d => d / two_pi) (_dphi self))).

(** The mono mix of [N] samples that [render] computes from the oscillator
    phases [P], the phase increments, the morph weights and the
    amplitudes. *)
Definition voices_mix (N : nat) (P incs morph amp : vec) : vec :=
  sum_axis0 N
    (map2 (fun row a => map (fun x => x * a) row)
       (_morph_wave
          (map2 (fun p inc => map (fun t => p + inc * t) (map INR (seq 0 N)))
                P incs)
          morph)
       amp).

(** The oscillator phases after [N] samples. *)
Definition advance_phases (N : R) (P incs : vec) : vec :=
  map2 (fun p inc => fmod (p + inc * N) two_pi) P incs.

(** ** Checks of the model on concrete inputs *)

Example sign_pattern_3 :
  sign_pattern 3 = ([-0.5; -0.5; 0.5; 0.5; 0.5; 0.5; 0.5; 0.5], 2%Z).
Proof. reflexivity. Qed.

Example family_A_first :
  nth 0 family_A [] = [-1.0 * is2; -1.0 * is2; 0; 0; 0; 0; 0; 0].
Proof. reflexivity. Qed.

Example family_A_last :
  nth 111 family_A [] = [0; 0; 0; 0; 0; 0; 1.0 * is2; 1.0 * is2].
Proof. reflexivity. Qed.

Example sparse_two_nodes :
  _choose_sparse_roots_per_node 2 12
  = Some [[0; 20; 40; 60; 80; 100; 120; 140; 160; 180; 200; 220];
          [17; 37; 57; 77; 97; 117; 137; 157; 177; 197; 217; 237]]%Z.
Proof. reflexivity. Qed.

Example sparse_zero_per_node : _choose_sparse_roots_per_node 8 0 = None.
Proof. reflexivity. Qed.

Example set_macro_unknown_name :
  set_macro default_macros "Reverb" 1 = default_macros.
Proof. reflexivity. Qed.

Example set_macro_phase_gain :
  PhaseGain (set_macro default_macros "PhaseGain" 0) = 0.
Proof. reflexivity. Qed.

Lemma Int_part_IZR_plus (z : Z) (d : R) : 0 <= d < 1 -> Int_part (IZR z + d) = z.
Proof.
  intros Hd. symmetry. apply Int_part_spec. lra.
Qed.

Lemma py_round_integer (z : Z) : py_round (IZR z) = z.
Proof.
  unfold py_round.
  replace (Int_part (IZR z)) with z
    by (rewrite <- (Rplus_0_r (IZR z)) at 1; symmetry; apply Int_part_IZR_plus; lra).
  destruct (Rlt_dec _ _) as [_ | H]; [reflexivity | exfalso; apply H; lra].
Qed.

(** Ties go to the even neighbour: [round(2.5) = 2] and [round(3.5) = 4]. *)
Example py_round_ties : py_round 2.5 = 2%Z /\ py_round 3.5 = 4%Z.
Proof.
  unfold py_round.
  replace (Int_part 2.5) with 2%Z
    by (replace 2.5 with (IZR 2 + 0.5) by lra; symmetry;
        apply Int_part_IZR_plus; lra).
  replace (Int_part 3.5) with 3%Z
    by (replace 3.5 with (IZR 3 + 0.5) by lra; symmetry;
        apply Int_part_IZR_plus; lra).
  split.
  - destruct (Rlt_dec _ _) as [H | _]; [exfalso; lra |].
    destruct (Rlt_dec _ _) as [H | _]; [exfalso; lra | reflexivity].
  - destruct (Rlt_dec _ _) as [H | _]; [exfalso; lra |].
    destruct (Rlt_dec _ _) as [H | _]; [exfalso; lra | reflexivity].
Qed.

(** ** Facts on hyperbolic tangent *)

Lemma tanh_exp (x : R) :
  tanh x = (exp x - exp (- x)) / (exp x + exp (- x)).
Proof.
  unfold tanh, sinh, cosh.
  pose proof (exp_pos x). pose proof (exp_pos (- x)).
  field. lra.
Qed.

Lemma exp_mul_opp (x : R) : exp x * exp (- x) = 1.
Proof. rewrite <- exp_plus, Rplus_opp_r. apply exp_0. Qed.

Lemma tanh_lt_1 (x : R) : tanh x < 1.
Proof.
  rewrite tanh_exp.
  pose proof (exp_pos x). pose proof (exp_pos (- x)).
  apply Rmult_lt_reg_r with (exp x + exp (- x)); [lra|].
  unfold Rdiv. rewrite Rmult_assoc, Rinv_l by lra. lra.
Qed.


Lemma tanh_pos (x : R) : 0 < x -> 0 < tanh x.
Proof.
  intros Hx. rewrite tanh_exp.
  pose proof (exp_pos (- x)).
  assert (exp (- x) < exp x) by (apply exp_increasing; lra).
  apply Rdiv_lt_0_compat; lra.
Qed.

Lemma tanh_increasing (x y : R) : x < y -> tanh x < tanh y.
Proof.
  intros Hxy. rewrite !tanh_exp.
  pose proof (exp_pos x) as Hx. pose proof (exp_pos (- x)) as Hx'.
  pose proof (exp_pos y) as Hy. pose proof (exp_pos (- y)) as Hy'.
  pose proof (exp_mul_opp x) as Ex. pose proof (exp_mul_opp y) as Ey.
  assert (Hlt : exp x < exp y) by (apply exp_increasing; lra).
  assert (Hlt' : exp (- y) < exp (- x)) by (apply exp_increasing; lra).
  apply Rmult_lt_reg_r with (exp x + exp (- x)); [lra|].
  apply Rmult_lt_reg_r with (exp y + exp (- y)); [lra|].
  replace ((exp x - exp (- x)) / (exp x + exp (- x)) * (exp x + exp (- x)) *
           (exp y + exp (- y)))
    with ((exp x - exp (- x)) * (exp y + exp (- y))) by (field; lra).
  replace ((exp y - exp (- y)) / (exp y + exp (- y)) * (exp x + exp (- x)) *
           (exp y + exp (- y)))
    with ((exp y - exp (- y)) * (exp x + exp (- x))) by (field; lra).
  nra.
Qed.

(** ** Facts on arrays *)

Lemma dot_self_nonneg (v : vec) : 0 <= dot v v.
Proof. induction v as [|x v IH]; simpl; [lra | nra]. Qed.

Lemma dot_map_scale (s : R) (v : vec) :
  dot (map (fun x => x * s) v) (map (fun x => x * s) v) = s * s * dot v v.
Proof. induction v as [|x v IH]; simpl; [ring | rewrite IH; ring]. Qed.


Lemma norm_map_scale (s : R) (v : vec) :
  0 <= s -> norm (map (fun x => x * s) v) = s * norm v.
Proof.
  intros Hs. unfold norm. rewrite dot_map_scale.
  rewrite sqrt_mult by (try apply dot_self_nonneg; nra).
  rewrite sqrt_square by assumption. reflexivity.
Qed.


Lemma dot_gt_norm (v : vec) (b : R) :
  0 <= b -> b * b < dot v v -> b < norm v.
Proof.
  intros Hb Hd. unfold norm.
  rewrite <- (sqrt_square b) by assumption.
  apply sqrt_lt_1_alt. nra.
Qed.

(** The scale factor applied by [soft_project] above the bound. *)
Lemma soft_scale_bounds (n r_max : R) :
  0 < r_max -> r_max < n ->
  let s := r_max * tanh (n / r_max) / (n + 1e-12) in
  0 < s /\ s * n < r_max * tanh (n / r_max) /\ s < 1.
Proof.
  intros Hr Hn s.
  assert (Hq : 0 < n / r_max) by (apply Rdiv_lt_0_compat; lra).
  pose proof (tanh_pos _ Hq) as Ht0. pose proof (tanh_lt_1 (n / r_max)) as Ht1.
  assert (Hd : 0 < n + 1e-12) by lra.
  assert (Hnum : 0 < r_max * tanh (n / r_max)) by nra.
  assert (Hs : 0 < s) by (apply Rdiv_lt_0_compat; assumption).
  assert (Hsd : s * (n + 1e-12) = r_max * tanh (n / r_max))
    by (unfold s; field; lra).
  repeat split; try assumption; nra.
Qed.

(** C4. For every 8-component state vector and every positive bound,
    [soft_project] does not increase the Euclidean norm, leaves a norm that
    is at most the bound, and returns the vector unchanged when its norm is
    already at most the bound. *)
Theorem soft_project_contracts (q : QutritState.t) (r_max : R) :
  length (QutritState.r q) = 8%nat ->
  0 < r_max ->
  norm (QutritState.r (QutritState.soft_project q r_max)) <= norm (QutritState.r q) /\
  norm (QutritState.r (QutritState.soft_project q r_max)) <= r_max /\
  (norm (QutritState.r q) <= r_max -> QutritState.soft_project q r_max = q).
Proof.
  intros _ Hr. unfold QutritState.soft_project.
  destruct (Rle_dec _ _) as [Hle | Hgt].
  - split; [lra | split; [| reflexivity]].
    unfold norm. rewrite <- (sqrt_square r_max) by lra.
    apply sqrt_le_1_alt. exact Hle.
  - apply Rnot_le_lt in Hgt.
    assert (Hn : r_max < norm (QutritState.r q)) by (apply dot_gt_norm; lra).
    destruct (soft_scale_bounds _ _ Hr Hn) as (Hs0 & Hsn & Hs1).
    fold (norm (QutritState.r q)).
    pose proof (tanh_lt_1 (norm (QutritState.r q) / r_max)) as Ht1.
    simpl. rewrite norm_map_scale by lra.
    split; [nra | split; [nra |]].
    intros Hin. lra.
Qed.

(** C4 at the vector (3, 0, 0, 4, 0, 0, 0, 0) of norm 5 and the bound 1.2. *)
Lemma soft_project_contracts_witness :
  length (QutritState.r (QutritState.mk [3; 0; 0; 4; 0; 0; 0; 0])) = 8%nat /\
  0 < 1.2 /\
  norm (QutritState.r (QutritState.soft_project
                         (QutritState.mk [3; 0; 0; 4; 0; 0; 0; 0]) 1.2))
  <= norm (QutritState.r (QutritState.mk [3; 0; 0; 4; 0; 0; 0; 0])) /\
  norm (QutritState.r (QutritState.soft_project
                         (QutritState.mk [3; 0; 0; 4; 0; 0; 0; 0]) 1.2)) <= 1.2 /\
  (norm (QutritState.r (QutritState.mk [3; 0; 0; 4; 0; 0; 0; 0])) <= 1.2 ->
   QutritState.soft_project (QutritState.mk [3; 0; 0; 4; 0; 0; 0; 0]) 1.2
   = QutritState.mk [3; 0; 0; 4; 0; 0; 0; 0]).
Proof.
  split; [reflexivity | split; [lra |]].
  apply (soft_project_contracts (QutritState.mk [3; 0; 0; 4; 0; 0; 0; 0]) 1.2);
    [reflexivity | lra].
Defined.

(** ** Sparse coupling: the strided-offset rule *)

Lemma disjointb_spec (a b : list Z) :
  disjointb a b = true -> forall x, In x a -> ~ In x b.
Proof.
  unfold disjointb. rewrite forallb_forall. intros H x Ha Hb.
  specialize (H x Ha). apply negb_true_iff in H.
  assert (existsb (Z.eqb x) b = true) as E.
  { apply existsb_exists. exists x. split; [assumption | apply Z.eqb_refl]. }
  congruence.
Qed.

Lemma pairwise_disjointb_spec (t : list (list Z)) :
  pairwise_disjointb t = true ->
  ForallOrdPairs (fun a b => forall x, In x a -> ~ In x b) t.
Proof.
  induction t as [|a rest IH]; simpl; intros H.
  - constructor.
  - apply andb_true_iff in H as [Ha Hr]. constructor.
    + rewrite forallb_forall in Ha. apply Forall_forall.
      intros b Hb. apply disjointb_spec. apply Ha, Hb.
    + apply IH, Hr.
Qed.

Lemma nodupb_spec (l : list Z) : nodupb l = true -> NoDup l.
Proof.
  induction l as [|x rest IH]; simpl; intros H.
  - constructor.
  - apply andb_true_iff in H as [Hx Hr]. constructor.
    + intros Hin. apply negb_true_iff in Hx.
      assert (existsb (Z.eqb x) rest = true) as E.
      { apply existsb_exists. exists x. split; [assumption | apply Z.eqb_refl]. }
      congruence.
    + apply IH, Hr.
Qed.

Lemma choose_sparse_roots_rule (num_nodes : Z) :
  _choose_sparse_roots_per_node num_nodes 12 =
  Some (map (fun i =>
               map (fun j => ((17 * Z.of_nat i + 20 * Z.of_nat j) mod 240)%Z)
                   (seq 0 12))
            (range num_nodes)).
Proof.
  unfold _choose_sparse_roots_per_node. simpl (_ =? _)%Z. cbv iota.
  f_equal. apply map_ext. intros i.
  change (range 12) with (seq 0 12). apply map_ext. intros j.
  change (240 / 12)%Z with 20%Z.
  rewrite Zplus_mod_idemp_l. f_equal. lia.
Qed.

(** ** The root table *)

Lemma sqrt2_pos : 0 < sqrt 2.
Proof. apply sqrt_lt_R0. lra. Qed.

Lemma is2_eq : is2 = 1 / sqrt 2.
Proof. unfold is2. replace 1.0 with 1 by lra. replace 2.0 with 2 by lra. reflexivity. Qed.

Lemma family_A_pairs :
  family_A =
  flat_map (fun ij =>
              map (fun s => axis_pair_vector (fst ij) (snd ij) (fst s) (snd s))
                  sign_pairs)
           axis_pairs.
Proof. reflexivity. Qed.

Lemma bit_test (mask : Z) (b : nat) :
  (Z.land (Z.shiftr mask (Z.of_nat b)) 1 =? 0)%Z = negb (Z.testbit mask (Z.of_nat b)).
Proof.
  rewrite Z.testbit_odd.
  change 1%Z with (Z.ones 1). rewrite Z.land_ones by lia.
  change (2 ^ 1)%Z with 2%Z.
  rewrite <- Z.bit0_mod, Z.bit0_odd.
  destruct (Z.odd _); reflexivity.
Qed.

Lemma sign_pattern_spec (mask : Z) :
  sign_pattern mask = (half_pattern mask, minus_signs mask).
Proof.
  unfold sign_pattern, half_pattern, minus_signs.
  cbn [seq fold_left fold_right map].
  rewrite !bit_test.
  generalize 0.5 (-0.5). intros p m.
  destruct (Z.testbit mask (Z.of_nat 0)), (Z.testbit mask (Z.of_nat 1)),
    (Z.testbit mask (Z.of_nat 2)), (Z.testbit mask (Z.of_nat 3)),
    (Z.testbit mask (Z.of_nat 4)), (Z.testbit mask (Z.of_nat 5)),
    (Z.testbit mask (Z.of_nat 6)), (Z.testbit mask (Z.of_nat 7));
    reflexivity.
Qed.

Lemma half_pattern_dot (mask : Z) :
  dot (half_pattern mask) (half_pattern mask) = 2.
Proof.
  unfold half_pattern. cbn [seq map dot].
  repeat match goal with
         | |- context [if ?c then _ else _] => destruct c
         end; lra.
Qed.

Lemma half_pattern_norm (mask : Z) : norm (half_pattern mask) = sqrt 2.
Proof. unfold norm. rewrite half_pattern_dot. reflexivity. Qed.

Lemma half_pattern_length (mask : Z) : length (half_pattern mask) = 8%nat.
Proof. reflexivity. Qed.

Lemma dot_map_div (c : R) (v : vec) :
  c <> 0 ->
  dot (map (fun x => x / c) v) (map (fun x => x / c) v) = dot v v / (c * c).
Proof.
  intros Hc. induction v as [|x v IH]; simpl.
  - field. assumption.
  - rewrite IH. field. assumption.
Qed.

Lemma unit_pattern_norm (mask : Z) : norm (unit_pattern mask) = 1.
Proof.
  pose proof sqrt2_pos as Hs.
  unfold unit_pattern, norm at 1. rewrite half_pattern_norm.
  rewrite dot_map_div by lra. rewrite half_pattern_dot.
  rewrite sqrt_sqrt by lra.
  replace (2 / 2) with 1 by lra. apply sqrt_1.
Qed.

(** The loop appends the normalised pattern of every even mask, as long as
    the [break] is not taken before the masks are exhausted. *)
Lemma family_B_loop_spec (masks : list Z) (roots : list vec) :
  (length roots +
   length (filter (fun m => Z.even (minus_signs m)) masks) <= 240)%nat ->
  family_B_loop masks roots =
  roots ++ map unit_pattern (filter (fun m => Z.even (minus_signs m)) masks).
Proof.
  revert roots. induction masks as [|mask rest IH]; intros roots Hlen.
  - simpl. now rewrite app_nil_r.
  - cbn [family_B_loop filter]. rewrite sign_pattern_spec.
    rewrite <- Zeven_mod. cbn [filter] in Hlen.
    destruct (Z.even (minus_signs mask)) eqn:Heven.
    + rewrite half_pattern_norm.
      destruct (Rlt_dec 0 (sqrt 2)) as [_ | Hn]; [| destruct Hn; apply sqrt2_pos].
      fold (norm (half_pattern mask)) in *.
      rewrite <- half_pattern_norm with (mask := mask).
      fold (unit_pattern mask).
      cbn [length map] in *.
      match goal with
      | |- context [if ?c then _ else _] => destruct c eqn:Hfull
      end.
      * apply Nat.eqb_eq in Hfull. rewrite length_app in Hfull. simpl in Hfull.
        destruct (filter _ rest) as [|m ms]; [| simpl in Hlen; lia].
        reflexivity.
      * rewrite IH.
        -- rewrite <- app_assoc. reflexivity.
        -- rewrite length_app. simpl. lia.
    + apply IH. exact Hlen.
Qed.

Lemma even_masks_length : length even_masks = 128%nat.
Proof. vm_compute. reflexivity. Qed.

Lemma family_A_length : length family_A = 112%nat.
Proof. reflexivity. Qed.

Lemma get_axis_pair_vector (i j k : nat) (a b : R) :
  get (axis_pair_vector i j a b) k =
  if (k <? 8)%nat
  then if (k =? i)%nat then a * is2 else if (k =? j)%nat then b * is2 else 0
  else 0.
Proof.
  unfold get, axis_pair_vector.
  do 8 (destruct k as [|k]; [reflexivity |]).
  destruct k; reflexivity.
Qed.

Lemma axis_pair_vector_two_nonzero (i j : nat) (a b : R) :
  (i < j < 8)%nat -> Rabs a = 1 -> Rabs b = 1 ->
  two_nonzero (axis_pair_vector i j a b).
Proof.
  intros Hij Ha Hb. exists i, j. split; [assumption |].
  pose proof sqrt2_pos as Hs.
  assert (His : Rabs is2 = 1 / sqrt 2).
  { rewrite is2_eq. apply Rabs_pos_eq. apply Rlt_le, Rdiv_lt_0_compat; lra. }
  rewrite !get_axis_pair_vector.
  replace (i <? 8)%nat with true by (symmetry; apply Nat.ltb_lt; lia).
  replace (j <? 8)%nat with true by (symmetry; apply Nat.ltb_lt; lia).
  rewrite !Nat.eqb_refl.
  replace (j =? i)%nat with false by (symmetry; apply Nat.eqb_neq; lia).
  split; [| split].
  - rewrite Rabs_mult, Ha, His. lra.
  - rewrite Rabs_mult, Hb, His. lra.
  - intros k Hki Hkj. rewrite get_axis_pair_vector.
    apply Nat.eqb_neq in Hki, Hkj. rewrite Hki, Hkj.
    destruct (k <? 8)%nat; reflexivity.
Qed.

Lemma family_A_two_nonzero : Forall two_nonzero family_A.
Proof.
  rewrite family_A_pairs. apply Forall_flat_map.
  assert (Hm : Rabs (-1.0) = 1) by (rewrite Rabs_left; lra).
  assert (Hp : Rabs 1.0 = 1) by (rewrite Rabs_right; lra).
  unfold axis_pairs. cbn [flat_map seq map app Nat.add Nat.sub].
  repeat (apply Forall_cons;
          [ unfold sign_pairs; cbn [map fst snd];
            repeat (apply Forall_cons;
                    [apply axis_pair_vector_two_nonzero; [lia | assumption | assumption] |]);
            apply Forall_nil |]).
  apply Forall_nil.
Qed.

Lemma family_A_shape : forallb (fun v : vec => (length v =? 8)%nat) family_A = true.
Proof. reflexivity. Qed.

Lemma even_filter_length :
  length (filter (fun m => Z.even (minus_signs m)) (map Z.of_nat (seq 0 256)))
  = 128%nat.
Proof. vm_compute. reflexivity. Qed.

Lemma generate_e8_roots_eq :
  generate_e8_roots = Some (family_A ++ map unit_pattern even_masks).
Proof.
  unfold generate_e8_roots, even_masks.
  assert (Hlen : (length family_A +
                  length (filter (fun m => Z.even (minus_signs m))
                                 (map Z.of_nat (seq 0 256))) <= 240)%nat).
  { rewrite even_filter_length, family_A_length. apply Nat.le_refl. }
  rewrite (family_B_loop_spec _ _ Hlen).
  set (roots := family_A ++ _).
  assert (Hs : has_shape roots 240 8 = true).
  { unfold has_shape. apply andb_true_iff. split.
    - apply Nat.eqb_eq. unfold roots. 
      rewrite length_app, length_map, even_filter_length, family_A_length.
      reflexivity.
    - unfold roots. rewrite forallb_app. apply andb_true_iff.
      split; [exact family_A_shape |].
      apply forallb_forall. intros v Hv.
      apply in_map_iff in Hv as (m & <- & _).
      unfold unit_pattern. rewrite length_map. reflexivity. }
  rewrite Hs. reflexivity.
Qed.

(** C6. Root generation returns exactly 240 vectors of dimension 8.  The
    first 112 are Family A: one quadruple of sign choices per axis pair
    [i < j], each vector with exactly two nonzero components of magnitude
    [1 / sqrt 2].  The remaining 128 are Family B: the patterns of [+-0.5]
    entries of the 8-bit masks with an even number of minus signs, in
    ascending mask order, each divided by its norm and so of unit norm. *)
Theorem generate_e8_roots_families :
  exists roots,
    generate_e8_roots = Some roots /\
    length roots = 240%nat /\
    Forall (fun v => length v = 8%nat) roots /\
    firstn 112 roots =
      flat_map (fun ij =>
                  map (fun s => axis_pair_vector (fst ij) (snd ij) (fst s) (snd s))
                      sign_pairs)
               axis_pairs /\
    length axis_pairs = 28%nat /\
    Forall (fun ij => (fst ij < snd ij < 8)%nat) axis_pairs /\
    Forall two_nonzero (firstn 112 roots) /\
    skipn 112 roots = map unit_pattern even_masks /\
    length even_masks = 128%nat /\
    even_masks =
      filter (fun m => Z.even (minus_signs m)) (map Z.of_nat (seq 0 256)) /\
    Forall (fun v => norm v = 1) (skipn 112 roots).
Proof.
  exists (family_A ++ map unit_pattern even_masks).
  assert (Hfirst : firstn 112 (family_A ++ map unit_pattern even_masks) = family_A).
  { rewrite <- family_A_length. rewrite firstn_app, Nat.sub_diag, firstn_all.
    rewrite firstn_O. apply app_nil_r. }
  assert (Hskip : skipn 112 (family_A ++ map unit_pattern even_masks)
                  = map unit_pattern even_masks).
  { rewrite <- family_A_length. rewrite skipn_app, Nat.sub_diag, skipn_all.
    rewrite skipn_O. reflexivity. }
  split; [exact generate_e8_roots_eq |].
  split.
  { rewrite length_app, length_map, even_masks_length, family_A_length.
    reflexivity. }
  split.
  { apply Forall_app. split.
    - apply Forall_forall. intros v Hv.
      pose proof family_A_shape as Hs. rewrite forallb_forall in Hs.
      apply Nat.eqb_eq, Hs, Hv.
    - apply Forall_forall. intros v Hv.
      apply in_map_iff in Hv as (m & <- & _).
      unfold unit_pattern. rewrite length_map. reflexivity. }
  rewrite Hfirst, Hskip.
  split; [exact family_A_pairs |].
  split; [reflexivity |].
  split.
  { unfold axis_pairs. cbn [flat_map seq map app Nat.add Nat.sub].
    repeat (apply Forall_cons; [cbn [fst snd]; lia |]). apply Forall_nil. }
  split; [exact family_A_two_nonzero |].
  split; [reflexivity |].
  split; [exact even_masks_length |].
  split; [unfold even_masks; reflexivity |].
  apply Forall_forall. intros v Hv.
  apply in_map_iff in Hv as (m & <- & _). apply unit_pattern_norm.
Qed.

(** ** Facts on array updates and on the float remainder *)

Lemma length_set {A : Type} (a : list A) (i : nat) (x : A) :
  length (set a i x) = length a.
Proof.
  revert i. induction a as [|y a IH]; intros [|i]; simpl; try reflexivity.
  now rewrite IH.
Qed.



Lemma length_map2 {A B C : Type} (f : A -> B -> C) (a : list A) (b : list B) :
  length (map2 f a b) = Nat.min (length a) (length b).
Proof.
  revert b. induction a as [|x a IH]; intros [|y b]; simpl; try reflexivity.
  now rewrite IH.
Qed.

Lemma two_pi_pos : 0 < two_pi.
Proof. unfold two_pi. pose proof PI_RGT_0. lra. Qed.

Lemma fmod_range (x y : R) : 0 < y -> 0 <= fmod x y < y.
Proof.
  intros Hy. unfold fmod.
  destruct (base_Int_part (x / y)) as [Hlo Hhi].
  assert (Hx : x = x / y * y) by (field; lra).
  split.
  - assert (IZR (Int_part (x / y)) * y <= x / y * y) by nra. lra.
  - assert (x / y * y < (IZR (Int_part (x / y)) + 1) * y) by nra. lra.
Qed.


Lemma map2_fmod_range (f : R -> R -> R) (a b : vec) :
  Forall (fun p => 0 <= p < two_pi) (map2 (fun p q => fmod (f p q) two_pi) a b).
Proof.
  revert b. induction a as [|x a IH]; intros [|y b]; simpl; constructor.
  - apply fmod_range, two_pi_pos.
  - apply IH.
Qed.


Lemma fold_set_length {A : Type} (F : nat -> A) (l : list nat) (a : list A) :
  length (fold_left (fun a k => set a k (F k)) l a) = length a.
Proof.
  revert a. induction l as [|k l IH]; intros a; simpl.
  - reflexivity.
  - rewrite IH. apply length_set.
Qed.


(** ** The control step and the fields it leaves alone *)

Section EngineFacts.

Context `{G : Generator}.

Implicit Types self : E8FractalPowerModule.

Lemma with_sample_counter_same self :
  with_sample_counter self (_sample_counter self) = self.
Proof. destruct self; reflexivity. Qed.

Lemma with_node_phase_same self :
  with_node_phase self (_node_phase self) = self.
Proof. destruct self; reflexivity. Qed.

Lemma with_sample_counter_twice self (a b : Z) :
  with_sample_counter (with_sample_counter self a) b = with_sample_counter self b.
Proof. reflexivity. Qed.

Lemma apply_torus_macros_counter self (c : Z) :
  _apply_torus_macros (with_sample_counter self c)
  = with_sample_counter (_apply_torus_macros self) c.
Proof.
  unfold _apply_torus_macros. cbn [macros torus rng with_sample_counter].
  destruct (Rlt_dec _ _); [| reflexivity].
  destruct (uniform (-0.05) 0.05 8 (rng self)) as [u1 g1].
  destruct (uniform (-0.002) 0.002 8 g1) as [u2 g2]. reflexivity.
Qed.

Lemma apply_torus_macros_node_phase self (p : vec) :
  _apply_torus_macros (with_node_phase self p)
  = with_node_phase (_apply_torus_macros self) p.
Proof.
  unfold _apply_torus_macros. cbn [macros torus rng with_node_phase].
  destruct (Rlt_dec _ _); [| reflexivity].
  destruct (uniform (-0.05) 0.05 8 (rng self)) as [u1 g1].
  destruct (uniform (-0.002) 0.002 8 g1) as [u2 g2]. reflexivity.
Qed.

Lemma fold_control_node_commute
  (set_field : E8FractalPowerModule -> E8FractalPowerModule)
  (pg ag bias lam dt : R) (ph_all : vec) :
  (forall self i, control_node pg ag bias lam dt ph_all (set_field self) i
                  = set_field (control_node pg ag bias lam dt ph_all self i)) ->
  forall (l : list nat) self,
    fold_left (control_node pg ag bias lam dt ph_all) l (set_field self)
    = set_field (fold_left (control_node pg ag bias lam dt ph_all) l self).
Proof.
  intros Hc l. induction l as [|i l IH]; intros self; simpl.
  - reflexivity.
  - rewrite Hc. apply IH.
Qed.

Lemma control_step_counter self (c : Z) :
  control_step (with_sample_counter self c)
  = with_sample_counter (control_step self) c.
Proof.
  unfold control_step. rewrite apply_torus_macros_counter.
  set (e1 := _apply_torus_macros self).
  exact (fold_control_node_commute (fun e => with_sample_counter e c) _ _ _ _ _ _
           (fun _ _ => eq_refl) _
           (with_torus_rng e1 (E8Torus.advance (torus e1) (1.0 / control_rate e1))
                           (rng e1))).
Qed.

Lemma control_step_node_phase self (p : vec) :
  control_step (with_node_phase self p)
  = with_node_phase (control_step self) p.
Proof.
  unfold control_step. rewrite apply_torus_macros_node_phase.
  set (e1 := _apply_torus_macros self).
  exact (fold_control_node_commute (fun e => with_node_phase e p) _ _ _ _ _ _
           (fun _ _ => eq_refl) _
           (with_torus_rng e1 (E8Torus.advance (torus e1) (1.0 / control_rate e1))
                           (rng e1))).
Qed.

Lemma iter_control_step_counter (k : nat) self (c : Z) :
  Nat.iter k control_step (with_sample_counter self c)
  = with_sample_counter (Nat.iter k control_step self) c.
Proof.
  induction k as [|k IH]; simpl; [reflexivity |].
  now rewrite IH, control_step_counter.
Qed.

Lemma iter_control_step_node_phase (k : nat) self (p : vec) :
  Nat.iter k control_step (with_node_phase self p)
  = with_node_phase (Nat.iter k control_step self) p.
Proof.
  induction k as [|k IH]; simpl; [reflexivity |].
  now rewrite IH, control_step_node_phase.
Qed.

Lemma same_frame_refl self : same_frame self self.
Proof. repeat split. Qed.

Lemma same_frame_trans a b c : same_frame a b -> same_frame b c -> same_frame a c.
Proof.
  unfold same_frame. intros H1 H2.
  repeat match goal with H : _ /\ _ |- _ => destruct H end.
  repeat split; congruence.
Qed.

Lemma apply_torus_macros_frame self : same_frame self (_apply_torus_macros self).
Proof.
  unfold _apply_torus_macros.
  destruct (Rlt_dec _ _); [| repeat split].
  destruct (uniform (-0.05) 0.05 8 (rng self)) as [u1 g1].
  destruct (uniform (-0.002) 0.002 8 g1) as [u2 g2]. repeat split.
Qed.

Lemma fold_control_node_frame (pg ag bias lam dt : R) (ph_all : vec)
  (l : list nat) self :
  same_frame self (fold_left (control_node pg ag bias lam dt ph_all) l self) /\
  torus (fold_left (control_node pg ag bias lam dt ph_all) l self) = torus self /\
  rng (fold_left (control_node pg ag bias lam dt ph_all) l self) = rng self.
Proof.
  revert self. induction l as [|i l IH]; intros self; simpl.
  - split; [apply same_frame_refl | split; reflexivity].
  - destruct (IH (control_node pg ag bias lam dt ph_all self i)) as (Hf & Ht & Hr).
    split; [| split].
    + eapply same_frame_trans; [| exact Hf]. repeat split.
    + rewrite Ht. reflexivity.
    + rewrite Hr. reflexivity.
Qed.

Lemma control_step_frame self : same_frame self (control_step self).
Proof.
  unfold control_step.
  eapply same_frame_trans; [apply apply_torus_macros_frame |].
  eapply same_frame_trans; [| apply fold_control_node_frame].
  repeat split.
Qed.

Lemma iter_control_step_frame (k : nat) self :
  same_frame self (Nat.iter k control_step self).
Proof.
  induction k as [|k IH]; simpl; [apply same_frame_refl |].
  eapply same_frame_trans; [exact IH | apply control_step_frame].
Qed.

End EngineFacts.

(** ** The control scheduler in closed form *)

Lemma div_mod_chunks (c a b spc : Z) :
  (0 < spc)%Z -> (0 <= c)%Z -> (0 <= a)%Z -> (0 <= b)%Z ->
  (((c + a) mod spc + b) / spc + (c + a) / spc = (c + (a + b)) / spc)%Z /\
  (((c + a) mod spc + b) mod spc = (c + (a + b)) mod spc)%Z.
Proof.
  intros Hs Hc Ha Hb.
  pose proof (Z.div_mod (c + a) spc ltac:(lia)) as E.
  replace (c + (a + b))%Z with (((c + a) mod spc + b) + (c + a) / spc * spc)%Z by lia.
  rewrite Z.div_add by lia. rewrite Z.mod_add by lia. split; reflexivity.
Qed.

Section Scheduler.

Context `{G : Generator}.

Implicit Types self : E8FractalPowerModule.

Lemma control_loop_closed (fuel : nat) :
  forall self (remaining : Z) (ticks : nat),
    counter_ok self -> (0 <= remaining)%Z -> (Z.to_nat remaining <= fuel)%nat ->
    control_loop fuel self remaining ticks
    = Some (after_samples self remaining, (ticks + ticks_for self remaining)%nat).
Proof.
  induction fuel as [|fuel IH]; intros self remaining ticks Hok Hrem Hfuel.
  - assert (remaining = 0%Z) as -> by lia.
    unfold after_samples, ticks_for, counter_after. simpl.
    rewrite Z.add_0_r, Z.div_small, Z.mod_small by exact Hok.
    simpl. now rewrite with_sample_counter_same, Nat.add_0_r.
  - cbn [control_loop].
    destruct (remaining >? 0)%Z eqn:Hpos.
    2:{ assert (remaining = 0%Z) as -> by lia.
        unfold after_samples, ticks_for, counter_after.
        rewrite Z.add_0_r, Z.div_small, Z.mod_small by exact Hok.
        simpl. now rewrite with_sample_counter_same, Nat.add_0_r. }
    apply Z.gtb_lt in Hpos.
    cbn [_sample_counter _samples_per_control with_sample_counter].
    set (c := _sample_counter self) in *.
    set (spc := _samples_per_control self) in *.
    unfold counter_ok in Hok. fold c spc in Hok.
    destruct (Z_lt_le_dec remaining (spc - c)) as [Hlt | Hge].
    + (* the block ends before the next control step *)
      rewrite Z.min_r by lia.
      replace (c + remaining >=? spc)%Z with false by (symmetry; lia).
      rewrite Z.sub_diag.
      destruct fuel; cbn [control_loop]; simpl (0 >? 0)%Z; cbv iota;
        unfold after_samples, ticks_for, counter_after; fold c spc;
        rewrite Z.div_small, Z.mod_small by lia;
        simpl; now rewrite Nat.add_0_r.
    + (* the counter reaches the threshold: one control step *)
      rewrite Z.min_l by lia.
      replace (c + (spc - c) >=? spc)%Z with true by (symmetry; lia).
      rewrite with_sample_counter_twice, control_step_counter.
      pose proof (control_step_frame self) as Hf.
      destruct Hf as (_ & _ & _ & _ & _ & _ & _ & _ & Hspc & Hcnt).
      rewrite IH.
      * unfold after_samples, ticks_for, counter_after.
        cbn [_sample_counter _samples_per_control with_sample_counter].
        rewrite Hspc. fold c spc.
        rewrite iter_control_step_counter, with_sample_counter_twice.
        rewrite Z.add_0_l.
        replace (c + remaining)%Z with ((remaining - (spc - c)) + 1 * spc)%Z by lia.
        rewrite Z.div_add, Z.mod_add by lia.
        assert (Hq : (0 <= (remaining - (spc - c)) / spc)%Z)
          by (apply Z.div_pos; lia).
        rewrite Z2Nat.inj_add by lia.
        change (Z.to_nat 1) with 1%nat.
        rewrite Nat.add_1_r, Nat.iter_succ_r.
        rewrite Nat.add_succ_r. reflexivity.
      * unfold counter_ok.
        cbn [_sample_counter _samples_per_control with_sample_counter].
        rewrite Hspc. fold spc. lia.
      * lia.
      * lia.
Qed.

Lemma process_control_closed self (n : Z) :
  counter_ok self -> (0 <= n)%Z ->
  process_control_for_samples self n
  = Some (after_samples self n, ticks_for self n).
Proof.
  intros Hok Hn. unfold process_control_for_samples.
  rewrite control_loop_closed by (assumption || lia). reflexivity.
Qed.

Lemma after_samples_frame self (n : Z) :
  num_nodes (after_samples self n) = num_nodes self /\
  sample_rate (after_samples self n) = sample_rate self /\
  macros (after_samples self n) = macros self /\
  _node_phase (after_samples self n) = _node_phase self /\
  _base_freq (after_samples self n) = _base_freq self /\
  _samples_per_control (after_samples self n) = _samples_per_control self /\
  _sample_counter (after_samples self n) = counter_after self n.
Proof.
  unfold after_samples.
  destruct (iter_control_step_frame (ticks_for self n) self)
    as (H1 & H2 & H3 & H4 & H5 & H6 & H7 & H8 & H9 & H10).
  cbn [num_nodes sample_rate macros _node_phase _base_freq
       _samples_per_control _sample_counter with_sample_counter].
  repeat split; assumption.
Qed.

Lemma counter_after_ok self (n : Z) :
  counter_ok self -> counter_ok (after_samples self n).
Proof.
  intros Hok. unfold counter_ok in *.
  destruct (after_samples_frame self n) as (_ & _ & _ & _ & _ & -> & ->).
  unfold counter_after. apply Z.mod_pos_bound. lia.
Qed.

(** Samples accumulate: [a] samples then [b] samples fire the control steps
    of [a + b] samples, in the same order, and leave the same counter. *)
Lemma after_samples_add self (a b : Z) :
  counter_ok self -> (0 <= a)%Z -> (0 <= b)%Z ->
  after_samples (after_samples self a) b = after_samples self (a + b) /\
  (ticks_for self a + ticks_for (after_samples self a) b)%nat
  = ticks_for self (a + b).
Proof.
  intros Hok Ha Hb.
  destruct (after_samples_frame self a) as (_ & _ & _ & _ & _ & Hspc & Hcnt).
  unfold counter_ok in Hok.
  destruct (div_mod_chunks (_sample_counter self) a b (_samples_per_control self))
    as [Hdiv Hmod]; try lia.
  assert (Hk : ticks_for (after_samples self a) b
               = Z.to_nat (((_sample_counter self + a) mod _samples_per_control self + b)
                           / _samples_per_control self)).
  { unfold ticks_for at 1. rewrite Hspc, Hcnt. reflexivity. }
  assert (Hc : counter_after (after_samples self a) b = counter_after self (a + b)).
  { unfold counter_after at 1. rewrite Hspc, Hcnt. unfold counter_after.
    exact Hmod. }
  assert (Hq1 : (0 <= (_sample_counter self + a) / _samples_per_control self)%Z)
    by (apply Z.div_pos; lia).
  assert (Hq2 : (0 <= ((_sample_counter self + a) mod _samples_per_control self + b)
                      / _samples_per_control self)%Z).
  { apply Z.div_pos; [| lia].
    pose proof (Z.mod_pos_bound (_sample_counter self + a)
                  (_samples_per_control self) ltac:(lia)). lia. }
  assert (Hsum : (ticks_for self a + ticks_for (after_samples self a) b)%nat
                 = ticks_for self (a + b)).
  { rewrite Hk. unfold ticks_for. rewrite <- Hdiv. lia. }
  split; [| exact Hsum].
  transitivity
    (with_sample_counter
       (Nat.iter (ticks_for self a + ticks_for (after_samples self a) b)
                 control_step self)
       (counter_after self (a + b))).
  2:{ rewrite Hsum. reflexivity. }
  unfold after_samples at 1. rewrite Hc.
  set (k2 := ticks_for (after_samples self a) b).
  unfold after_samples.
  rewrite iter_control_step_counter, with_sample_counter_twice.
  rewrite (Nat.add_comm (ticks_for self a)), Nat.iter_add.
  reflexivity.
Qed.

End Scheduler.

(** ** The renderer *)



Section Renderer.

Context `{G : Generator}.

Implicit Types self : E8FractalPowerModule.

Lemma render_closed self (N : Z) (g : R) :
  counter_ok self -> (0 <= N)%Z -> sample_rate self <> 0 ->
  exists incs mixL mixR,
    render self N g
    = Some (with_node_phase (after_samples self N)
              (map2 (fun p inc => fmod (p + inc * IZR N) two_pi)
                    (_node_phase (after_samples self N)) incs),
            ticks_for self N, (map tanh mixL, map tanh mixR)) /\
    length incs = Nat.min (length (_base_freq (after_samples self N)))
                          (length (_dphi (after_samples self N))) /\
    length mixL = Z.to_nat N /\ length mixR = Z.to_nat N.
Proof.
  intros Hok HN Hsr. unfold render.
  replace (N <? 0)%Z with false by (symmetry; lia).
  destruct (Req_dec_T (sample_rate self) 0) as [E | _]; [contradiction |].
  rewrite process_control_closed by assumption.
  do 3 eexists. split; [reflexivity |].
  unfold sum_axis0. rewrite !length_map, length_map2, length_map, length_seq.
  repeat split.
Qed.

Lemma after_samples_zero self :
  counter_ok self -> after_samples self 0 = self /\ ticks_for self 0 = 0%nat.
Proof.
  intros Hok. unfold after_samples, ticks_for, counter_after.
  rewrite Z.add_0_r, Z.div_small, Z.mod_small by exact Hok.
  simpl. split; [apply with_sample_counter_same | reflexivity].
Qed.



Lemma render_chunks_closed (chunks : list (Z * R)) :
  forall self,
    counter_ok self -> sample_rate self <> 0 ->
    Forall (fun c => (0 <= fst c)%Z) chunks ->
    exists p,
      render_chunks self chunks
      = Some (with_node_phase (after_samples self (total_samples chunks)) p,
              ticks_for self (total_samples chunks)).
Proof.
  induction chunks as [|[n g] rest IH]; intros self Hok Hsr Hpos.
  - exists (_node_phase self). simpl.
    destruct (after_samples_zero self Hok) as [-> ->].
    now rewrite with_node_phase_same.
  - inversion Hpos as [|? ? Hn Hrest]; subst. simpl in Hn.
    destruct (render_closed self n g Hok Hn Hsr) as (incs & mixL & mixR & E & _).
    cbn [render_chunks]. rewrite E.
    set (p1 := map2 _ _ incs).
    assert (Hrest_nonneg : (0 <= total_samples rest)%Z).
    { clear -Hrest. induction Hrest; simpl; lia. }
    assert (Hok1 : counter_ok (with_node_phase (after_samples self n) p1))
      by (apply (counter_after_ok self n Hok)).
    assert (Hsr1 : sample_rate (with_node_phase (after_samples self n) p1) <> 0).
    { cbn [sample_rate with_node_phase].
      destruct (after_samples_frame self n) as (_ & -> & _). exact Hsr. }
    destruct (IH _ Hok1 Hsr1 Hrest) as (p & Ep). rewrite Ep.
    exists p. cbn [total_samples fold_right fst]. fold (total_samples rest).
    destruct (after_samples_add self n (total_samples rest) Hok Hn Hrest_nonneg)
      as [Hadd Hticks].
    rewrite <- Hadd, <- Hticks.
    assert (Hshift : forall m,
               after_samples (with_node_phase (after_samples self n) p1) m
               = with_node_phase (after_samples (after_samples self n) m) p1
               /\ ticks_for (with_node_phase (after_samples self n) p1) m
                  = ticks_for (after_samples self n) m).
    { intros m. unfold after_samples at 1 3, ticks_for at 1 2 3, counter_after at 1 2.
      cbn [_sample_counter _samples_per_control with_node_phase].
      rewrite iter_control_step_node_phase. split; reflexivity. }
    destruct (Hshift (total_samples rest)) as [-> ->].
    reflexivity.
Qed.

(** C3. Whatever the way a block of [N] samples is split into successive
    [render] calls (with sample counts that add up to [N], and any base
    gains), the calls fire together as many control steps as a single
    [render] of [N] samples and leave the same torus angles and velocities
    and the same node state vectors; the engines differ at most in the
    oscillator phases. *)
Theorem render_chunking_invariant self (chunks : list (Z * R)) (g : R) :
  counter_ok self -> sample_rate self <> 0 ->
  Forall (fun c => (0 <= fst c)%Z) chunks ->
  exists one many k out,
    render self (total_samples chunks) g = Some (one, k, out) /\
    render_chunks self chunks = Some (many, k) /\
    k = ticks_for self (total_samples chunks) /\
    E8Torus.theta (torus one) = E8Torus.theta (torus many) /\
    E8Torus.omega (torus one) = E8Torus.omega (torus many) /\
    qs one = qs many /\
    with_node_phase one (_node_phase many) = many.
Proof.
  intros Hok Hsr Hpos.
  assert (HN : (0 <= total_samples chunks)%Z).
  { clear -Hpos. induction Hpos; simpl; lia. }
  destruct (render_closed self _ g Hok HN Hsr) as (incs & mixL & mixR & E & _).
  destruct (render_chunks_closed chunks self Hok Hsr Hpos) as (p & Ep).
  do 4 eexists. split; [exact E |]. split; [exact Ep |].
  repeat split.
Qed.

End Renderer.

(** ** Modulation outputs of a control step *)

Section Modulation.

Context `{G : Generator}.

Implicit Types self : E8FractalPowerModule.






End Modulation.

(** ** The jump of the soft projection at the bound *)

Lemma norm_axis0 (x : R) : 0 <= x -> norm (x :: zeros 7) = x.
Proof.
  intros Hx. unfold norm, zeros. cbn [repeat dot].
  replace (x * x + (0 * 0 + (0 * 0 + (0 * 0 + (0 * 0 + (0 * 0 + (0 * 0 + (0 * 0 + 0))))))))
    with (x * x) by ring.
  now apply sqrt_square.
Qed.

Lemma soft_project_axis0 (x : R) :
  1.2 < x < 2.4 ->
  get (QutritState.r (QutritState.soft_project (QutritState.mk (x :: zeros 7)) 1.2)) 0
  < 1.2 * tanh 2.
Proof.
  intros [Hlo Hhi]. unfold QutritState.soft_project.
  cbn [QutritState.r].
  assert (Hn : norm (x :: zeros 7) = x) by (apply norm_axis0; lra).
  unfold norm in Hn.
  destruct (Rle_dec _ _) as [Hle | _].
  - exfalso.
    assert (Hd : dot (x :: zeros 7) (x :: zeros 7) = x * x).
    { unfold zeros. cbn [repeat dot]. ring. }
    rewrite Hd in Hle. nra.
  - rewrite Hn. unfold zeros. cbn [map repeat QutritState.r]. unfold get. cbn [nth].
    destruct (soft_scale_bounds x 1.2 ltac:(lra) Hlo) as (_ & Hsx & _).
    assert (Ht : tanh (x / 1.2) < tanh 2) by (apply tanh_increasing; lra).
    nra.
Qed.

(** C5 (what the code does). The projection is not continuous at the bound
    1.2: vectors of norm just above the bound, however close, are moved by
    more than [1.2 * (1 - tanh 2)] on their first component, while vectors
    of norm at most the bound are returned unchanged. *)
Theorem soft_project_discontinuous_at_bound :
  ~ (forall eps, 0 < eps ->
       exists delta, 0 < delta /\
         forall v, length v = 8%nat -> 1.2 < norm v < 1.2 + delta ->
           forall i,
             Rabs (get (QutritState.r (QutritState.soft_project (QutritState.mk v) 1.2)) i
                   - get v i) < eps).
Proof.
  intros Hcont.
  pose proof (tanh_lt_1 2) as Ht.
  destruct (Hcont (1.2 * (1 - tanh 2)) ltac:(nra)) as (delta & Hdelta & Hv).
  set (x := 1.2 + Rmin delta 1 / 2).
  assert (Hmin : 0 < Rmin delta 1 <= 1).
  { split; [apply Rmin_glb_lt; lra | apply Rmin_r]. }
  assert (Hmind : Rmin delta 1 <= delta) by apply Rmin_l.
  assert (Hx : 1.2 < x < 2.4) by (unfold x; lra).
  specialize (Hv (x :: zeros 7) eq_refl).
  rewrite norm_axis0 in Hv by lra.
  specialize (Hv ltac:(unfold x; lra) 0%nat).
  pose proof (soft_project_axis0 x Hx) as Hjump.
  change (get (x :: zeros 7) 0) with x in Hv.
  apply Rabs_def2 in Hv. lra.
Qed.

(** ** Construction *)

Section Construction.

Context `{G : Generator}.

Implicit Types self : E8FractalPowerModule.

Lemma Forall_repeat {A : Type} (P : A -> Prop) (x : A) (n : nat) :
  P x -> Forall P (repeat x n).
Proof. intros Hx. induction n; simpl; constructor; assumption. Qed.

Lemma init_some (n : Z) (sr cr : R) (seed : Z) :
  (0 < n)%Z -> cr <> 0 ->
  exists self,
    init n sr cr seed = Some self /\
    num_nodes self = n /\ sample_rate self = sr /\ control_rate self = cr /\
    macros self = default_macros /\
    _sample_counter self = 0%Z /\
    _samples_per_control self = Z.max 1 (py_round (sr / cr)) /\
    wf self.
Proof.
  intros Hn Hcr. unfold init.
  rewrite generate_e8_roots_eq, choose_sparse_roots_rule.
  unfold range. destruct (Z.to_nat n) as [|m] eqn:Hm; [lia |].
  cbn [seq map].
  destruct (Req_dec_T cr 0) as [E | _]; [contradiction |].
  eexists. split; [reflexivity |].
  do 6 (split; [reflexivity |]).
  repeat split; cbn [num_nodes torus qs sparse_idx _dphi _damp _morph
                       _node_phase _base_freq _sample_counter
                       _samples_per_control E8Torus.theta E8Torus.default];
    rewrite ?Hm;
    try (unfold zeros, ones; rewrite ?repeat_length; reflexivity).
  - cbn [length]. rewrite length_map, length_seq. reflexivity.
  - constructor; [discriminate |].
    apply Forall_forall. intros idx Hidx.
    apply in_map_iff in Hidx as (i & <- & _). discriminate.
  - cbn [length]. rewrite length_map, length_map, length_seq. reflexivity.
  - apply Forall_repeat. pose proof two_pi_pos. lra.
  - lia.
Qed.

Lemma init_wf (n : Z) (sr cr : R) (seed : Z) self :
  init n sr cr seed = Some self -> wf self.
Proof.
  intros Hinit.
  assert (Hn : (0 < n)%Z).
  { unfold init in Hinit.
    rewrite generate_e8_roots_eq, choose_sparse_roots_rule in Hinit.
    unfold range in Hinit.
    destruct (Z.to_nat n) eqn:Hm; [discriminate | lia]. }
  assert (Hcr : cr <> 0).
  { intros ->. unfold init in Hinit.
    rewrite generate_e8_roots_eq, choose_sparse_roots_rule in Hinit.
    destruct (map _ (range n)); [discriminate |].
    destruct (Req_dec_T 0 0) as [_ | E]; [discriminate | now apply E]. }
  destruct (init_some n sr cr seed Hn Hcr) as (e & He & _ & _ & _ & _ & _ & _ & Hwf).
  congruence.
Qed.


End Construction.

(** ** The inert macros *)

Lemma active_with_inert_macros (m : Macros) (cd : Z) (sw : R) :
  active (with_inert_macros m cd sw) = active m.
Proof. reflexivity. Qed.

Lemma set_macro_active (m m' : Macros) (k : string) (v : R) :
  active m = active m' -> active (set_macro m k v) = active (set_macro m' k v).
Proof.
  destruct m, m'. unfold active, set_macro. cbn.
  intros [= -> -> -> -> -> -> ->].
  repeat match goal with
         | |- context [if ?c then _ else _] => destruct c
         end; reflexivity.
Qed.

Lemma fold_set_macro_active (overrides : list (string * R)) (m m' : Macros) :
  active m = active m' ->
  active (fold_left (fun m kv => set_macro m (fst kv) (snd kv)) overrides m)
  = active (fold_left (fun m kv => set_macro m (fst kv) (snd kv)) overrides m').
Proof.
  revert m m'. induction overrides as [|[k v] rest IH]; intros m m' H; simpl.
  - exact H.
  - apply IH, set_macro_active, H.
Qed.

Section InertMacros.

Context `{G : Generator}.

Implicit Types self : E8FractalPowerModule.

Lemma inert_equiv_refl self : inert_equiv self self.
Proof. split; [destruct self |]; reflexivity. Qed.

Lemma apply_torus_macros_with_macros self (m : Macros) :
  active (macros self) = active m ->
  _apply_torus_macros (with_macros self m)
  = with_macros (_apply_torus_macros self) m.
Proof.
  destruct self as [n sr cr m0 g rs t q sp dp da mo np bf spc c].
  destruct m0, m. unfold active. cbn. intros [= -> -> -> -> -> -> ->].
  unfold _apply_torus_macros.
  cbn [macros torus rng with_macros PhiDrift CoxeterPhase EntropyBloom].
  destruct (Rlt_dec _ _); [| reflexivity].
  destruct (uniform (-0.05) 0.05 8 g) as [u1 g1].
  destruct (uniform (-0.002) 0.002 8 g1) as [u2 g2]. reflexivity.
Qed.

Lemma control_step_with_macros self (m : Macros) :
  active (macros self) = active m ->
  control_step (with_macros self m) = with_macros (control_step self) m.
Proof.
  intros Hact. unfold control_step.
  rewrite apply_torus_macros_with_macros by exact Hact.
  destruct (apply_torus_macros_frame self) as (_ & _ & _ & Hm & _).
  set (e1 := _apply_torus_macros self) in *.
  assert (Hact1 : active (macros e1) = active m) by (rewrite Hm; exact Hact).
  cbn [with_macros with_torus_rng macros torus rng control_rate roots num_nodes].
  unfold active in Hact1. injection Hact1 as _ _ _ Hb Hp Ha _.
  rewrite <- Hb, <- Hp, <- Ha.
  exact (fold_control_node_commute (fun e => with_macros e m) _ _ _ _ _ _
           (fun _ _ => eq_refl) _
           (with_torus_rng e1 (E8Torus.advance (torus e1) (1.0 / control_rate e1))
                           (rng e1))).
Qed.

Lemma control_loop_with_macros (fuel : nat) :
  forall self (m : Macros) (remaining : Z) (ticks : nat),
    active (macros self) = active m ->
    control_loop fuel (with_macros self m) remaining ticks
    = match control_loop fuel self remaining ticks with
      | Some (self', k) => Some (with_macros self' m, k)
      | None => None
      end /\
    (forall self' k, control_loop fuel self remaining ticks = Some (self', k) ->
                     macros self' = macros self).
Proof.
  induction fuel as [|fuel IH]; intros self m remaining ticks Hact;
    cbn [control_loop]; destruct (remaining >? 0)%Z.
  - split; [reflexivity | discriminate].
  - split; [reflexivity | now intros ? ? [= <- _]].
  - cbn [_sample_counter _samples_per_control with_macros with_sample_counter].
    destruct (_ >=? _)%Z.
    + change (with_sample_counter
                (with_sample_counter (with_macros self m) ?a) 0)
        with (with_macros (with_sample_counter self 0) m).
      rewrite control_step_with_macros by exact Hact.
      destruct (control_step_frame (with_sample_counter self 0))
        as (_ & _ & _ & Hm & _).
      destruct (IH (control_step (with_sample_counter self 0)) m
                  (remaining - Z.min (_samples_per_control self - _sample_counter self)
                                     remaining)%Z
                  (S ticks)) as [E Hk]; [rewrite Hm; exact Hact |].
      split; [exact E |].
      intros self' k Hrun. rewrite (Hk _ _ Hrun). exact Hm.
    + destruct (IH (with_sample_counter self
                      (_sample_counter self
                       + Z.min (_samples_per_control self - _sample_counter self)
                               remaining))
                  m
                  (remaining - Z.min (_samples_per_control self - _sample_counter self)
                                     remaining)%Z
                  ticks Hact) as [E Hk].
      split; [exact E |].
      intros self' k Hrun. exact (Hk _ _ Hrun).
  - split; [reflexivity | now intros ? ? [= <- _]].
Qed.

Lemma render_inert_equiv self1 self2 (N : Z) (g : R) :
  inert_equiv self1 self2 ->
  same_outcome
    (option_map (fun x => (fst (fst x), (snd (fst x), snd x))) (render self1 N g))
    (option_map (fun x => (fst (fst x), (snd (fst x), snd x))) (render self2 N g)).
Proof.
  intros [E Hact]. rewrite E. set (m := macros self2) in *. clearbody m. clear E.
  unfold render.
  cbn [sample_rate with_macros].
  destruct (N <? 0)%Z; [exact I |].
  destruct (Req_dec_T _ _); [exact I |].
  unfold process_control_for_samples.
  destruct (control_loop_with_macros (Z.to_nat N) self1 m N 0 Hact) as [-> Hm].
  destruct (control_loop (Z.to_nat N) self1 N 0) as [[e k] |]; [| exact I].
  specialize (Hm e k eq_refl).
  cbn [option_map fst snd same_outcome
       _dphi _damp _morph _node_phase _base_freq torus macros with_macros].
  assert (Hef : EnergyFlow (macros e) = EnergyFlow m).
  { rewrite Hm. unfold active in Hact. now injection Hact. }
  rewrite <- Hef.
  split; [reflexivity |].
  split; [reflexivity |].
  cbn [macros with_macros with_node_phase]. rewrite Hm. exact Hact.
Qed.

Lemma set_macros_inert_equiv self1 self2 (overrides : list (string * R)) :
  inert_equiv self1 self2 ->
  inert_equiv (set_macros self1 overrides) (set_macros self2 overrides).
Proof.
  intros [E Hact]. rewrite E. split.
  - reflexivity.
  - cbn [set_macros macros with_macros].
    apply fold_set_macro_active. exact Hact.
Qed.

Lemma run_inert_equiv (calls : list call) :
  forall self1 self2,
    inert_equiv self1 self2 -> same_outcome (run self1 calls) (run self2 calls).
Proof.
  induction calls as [|[overrides | n g] rest IH]; intros self1 self2 Heq.
  - simpl. split; [reflexivity | exact Heq].
  - cbn [run]. apply IH, set_macros_inert_equiv, Heq.
  - cbn [run]. pose proof (render_inert_equiv self1 self2 n g Heq) as Hr.
    destruct (render self1 n g) as [[[e1 k1] o1] |],
             (render self2 n g) as [[[e2 k2] o2] |];
      cbn [option_map fst snd same_outcome] in Hr; try contradiction.
    + destruct Hr as [[= -> ->] He]. specialize (IH e1 e2 He).
      destruct (run e1 rest) as [[e1' os1] |], (run e2 rest) as [[e2' os2] |];
        cbn [same_outcome] in *; try contradiction.
      * destruct IH as [-> He']. split; [reflexivity | exact He'].
      * exact I.
    + exact I.
Qed.

(** C8. CosmicDepth and SpatialWarp are inert: an engine and the same engine
    with other values of these two macros, driven by the same calls, raise
    at the same call or return the same arrays from every [render] and end
    in states that differ at most in these two macros.  (The statement
    holds for every sequence of calls, hence after every step of one.) *)
Theorem inert_macros_have_no_effect self (cosmic_depth : Z) (spatial_warp : R)
  (calls : list call) :
  same_outcome
    (run self calls)
    (run (with_macros self
            (with_inert_macros (macros self) cosmic_depth spatial_warp))
         calls).
Proof.
  apply run_inert_equiv. split; reflexivity.
Qed.

End InertMacros.

(** ** The shape invariant is preserved by every call *)

Section Invariant.

Context `{G : Generator}.

Implicit Types self : E8FractalPowerModule.

Lemma uniform_length (low high : R) (size : nat) (g : rng_state) :
  length (fst (uniform low high size g)) = size.
Proof.
  revert g. induction size as [|k IH]; intros g; simpl.
  - reflexivity.
  - destruct (random g) as [u g1]. specialize (IH g1).
    destruct (uniform low high k g1) as [rest g2]. simpl in *. now rewrite IH.
Qed.

Lemma apply_torus_macros_shape self :
  length (E8Torus.theta (torus self)) = 8%nat ->
  length (E8Torus.theta (torus (_apply_torus_macros self))) = 8%nat /\
  length (E8Torus.omega (torus (_apply_torus_macros self))) = 8%nat /\
  qs (_apply_torus_macros self) = qs self /\
  _dphi (_apply_torus_macros self) = _dphi self /\
  _damp (_apply_torus_macros self) = _damp self /\
  _morph (_apply_torus_macros self) = _morph self.
Proof.
  intros Ht. unfold _apply_torus_macros.
  destruct (Rlt_dec _ _).
  - pose proof (uniform_length (-0.05) 0.05 8 (rng self)) as H1.
    destruct (uniform (-0.05) 0.05 8 (rng self)) as [u1 g1].
    pose proof (uniform_length (-0.002) 0.002 8 g1) as H2.
    destruct (uniform (-0.002) 0.002 8 g1) as [u2 g2].
    cbn [fst] in H1, H2.
    cbn [torus with_torus_rng E8Torus.theta E8Torus.omega qs _dphi _damp _morph].
    rewrite !length_map2, !length_set, length_map, length_seq, Ht, H1, H2.
    repeat split.
  - cbn [torus with_torus_rng E8Torus.theta E8Torus.omega qs _dphi _damp _morph].
    rewrite !length_set, length_map, length_seq, Ht.
    repeat split.
Qed.

Lemma fold_control_node_shape (pg ag bias lam dt : R) (ph_all : vec)
  (l : list nat) self :
  length (qs (fold_left (control_node pg ag bias lam dt ph_all) l self))
  = length (qs self) /\
  length (_dphi (fold_left (control_node pg ag bias lam dt ph_all) l self))
  = length (_dphi self) /\
  length (_damp (fold_left (control_node pg ag bias lam dt ph_all) l self))
  = length (_damp self) /\
  length (_morph (fold_left (control_node pg ag bias lam dt ph_all) l self))
  = length (_morph self).
Proof.
  revert self. induction l as [|i l IH]; intros self; simpl.
  - repeat split.
  - destruct (IH (control_node pg ag bias lam dt ph_all self i))
      as (H1 & H2 & H3 & H4).
    rewrite H1, H2, H3, H4.
    cbn [control_node qs _dphi _damp _morph with_node].
    rewrite !length_set. repeat split.
Qed.

Lemma control_step_wf self : wf self -> wf (control_step self).
Proof.
  intros Hwf.
  destruct (control_step_frame self)
    as (Hn & _ & _ & _ & _ & Hsp & Hnp & Hbf & Hspc & Hcnt).
  destruct (apply_torus_macros_shape self (wf_theta _ Hwf))
    as (Hth & Hom & Hq & Hdp & Hda & Hmo).
  assert (Hshape :
            length (E8Torus.theta (torus (control_step self))) = 8%nat /\
            length (qs (control_step self)) = length (qs self) /\
            length (_dphi (control_step self)) = length (_dphi self) /\
            length (_damp (control_step self)) = length (_damp self) /\
            length (_morph (control_step self)) = length (_morph self)).
  { unfold control_step.
    set (e0 := _apply_torus_macros self) in *.
    set (e1 := with_torus_rng e0 _ _).
    match goal with
    | |- context [fold_left (control_node ?pg ?ag ?b ?lam ?dt ?ph) ?l e1] =>
        destruct (fold_control_node_shape pg ag b lam dt ph l e1)
          as (H1 & H2 & H3 & H4);
        destruct (fold_control_node_frame pg ag b lam dt ph l e1)
          as (_ & Ht & _)
    end.
    rewrite Ht, H1, H2, H3, H4.
    unfold e1.
    cbn [torus qs _dphi _damp _morph with_torus_rng E8Torus.theta E8Torus.advance].
    rewrite length_map2, Hth, Hom, Hq, Hdp, Hda, Hmo.
    repeat split. }
  destruct Hshape as (H1 & H2 & H3 & H4 & H5).
  constructor; rewrite ?Hn, ?Hsp, ?Hnp, ?Hbf, ?Hspc, ?Hcnt, ?H2, ?H3, ?H4, ?H5;
    try apply Hwf.
  exact H1.
Qed.

Lemma after_samples_wf self (n : Z) : wf self -> wf (after_samples self n).
Proof.
  intros Hwf. unfold after_samples.
  pose proof (Nat.iter_invariant (ticks_for self n) _ control_step wf
                control_step_wf self Hwf) as Hk.
  pose proof (counter_after_ok self n (wf_counter _ Hwf)) as Hc.
  unfold counter_ok, after_samples in Hc.
  destruct Hk. constructor; try assumption.
Qed.

Lemma render_wf self (N : Z) (g : R) self' k out :
  wf self -> render self N g = Some (self', k, out) -> wf self'.
Proof.
  intros Hwf Hr.
  assert (HN : (0 <= N)%Z).
  { unfold render in Hr. destruct (N <? 0)%Z eqn:E; [discriminate | lia]. }
  assert (Hsr : sample_rate self <> 0).
  { unfold render in Hr. destruct (N <? 0)%Z; [discriminate |].
    destruct (Req_dec_T _ _); [discriminate | assumption]. }
  destruct (render_closed self N g (wf_counter _ Hwf) HN Hsr)
    as (incs & mixL & mixR & E & Hincs & _).
  rewrite E in Hr. injection Hr as <- _ _.
  pose proof (after_samples_wf self N Hwf) as Hwf'.
  set (e := after_samples self N) in *.
  rewrite (wf_base_freq _ Hwf'), (wf_dphi _ Hwf'), Nat.min_id in Hincs.
  pose proof (wf_node_phase _ Hwf') as Hnp.
  change (_node_phase e)
    with (_node_phase (Nat.iter (ticks_for self N) control_step self)) in Hnp.
  destruct Hwf'. constructor; try assumption.
  - cbn [_node_phase with_node_phase num_nodes].
    rewrite length_map2, Hnp, Hincs. apply Nat.min_id.
  - cbn [_node_phase with_node_phase]. apply map2_fmod_range.
Qed.

Lemma set_macros_wf self (overrides : list (string * R)) :
  wf self -> wf (set_macros self overrides).
Proof. intros []. constructor; assumption. Qed.

(** Every engine reached from a constructed one satisfies the invariant. *)
Lemma run_wf (calls : list call) :
  forall self self' outs,
    wf self -> run self calls = Some (self', outs) -> wf self'.
Proof.
  induction calls as [|[overrides | n g] rest IH]; intros self self' outs Hwf Hrun.
  - injection Hrun as <- _. exact Hwf.
  - cbn [run] in Hrun. eapply IH; [| exact Hrun]. now apply set_macros_wf.
  - cbn [run] in Hrun.
    destruct (render self n g) as [[[e k] o] |] eqn:Hr; [| discriminate].
    destruct (run e rest) as [[e' os] |] eqn:Hrest; [| discriminate].
    injection Hrun as <- _.
    eapply IH; [| exact Hrest]. eapply render_wf; eassumption.
Qed.

(** The sparse subsets are never reassigned after construction. *)
Lemma control_loop_sparse_idx (fuel : nat) :
  forall self (remaining : Z) (ticks : nat) self' k,
    control_loop fuel self remaining ticks = Some (self', k) ->
    sparse_idx self' = sparse_idx self.
Proof.
  induction fuel as [|fuel IH]; intros self remaining ticks self' k Hrun;
    cbn [control_loop] in Hrun; destruct (remaining >? 0)%Z;
    try discriminate; try (injection Hrun as <- _; reflexivity).
  destruct (_ >=? _)%Z; apply IH in Hrun; rewrite Hrun.
  - destruct (control_step_frame
                (with_sample_counter
                   (with_sample_counter self
                      (_sample_counter self
                       + Z.min (_samples_per_control self - _sample_counter self)
                               remaining)) 0))
      as (_ & _ & _ & _ & _ & Hsp & _).
    exact Hsp.
  - reflexivity.
Qed.

Lemma render_sparse_idx self (N : Z) (g : R) self' k out :
  render self N g = Some (self', k, out) -> sparse_idx self' = sparse_idx self.
Proof.
  unfold render. destruct (N <? 0)%Z; [discriminate |].
  destruct (Req_dec_T _ _); [discriminate |].
  unfold process_control_for_samples.
  destruct (control_loop (Z.to_nat N) self N 0) as [[e t] |] eqn:Hloop;
    [| discriminate].
  intros [= <- _ _]. cbn [sparse_idx with_node_phase].
  exact (control_loop_sparse_idx _ _ _ _ _ _ Hloop).
Qed.

Lemma run_sparse_idx (calls : list call) :
  forall self self' outs,
    run self calls = Some (self', outs) -> sparse_idx self' = sparse_idx self.
Proof.
  induction calls as [|[overrides | n g] rest IH]; intros self self' outs Hrun.
  - injection Hrun as <- _. reflexivity.
  - cbn [run] in Hrun. apply IH in Hrun. exact Hrun.
  - cbn [run] in Hrun.
    destruct (render self n g) as [[[e k] o] |] eqn:Hr; [| discriminate].
    destruct (run e rest) as [[e' os] |] eqn:Hrest; [| discriminate].
    injection Hrun as <- _.
    rewrite (IH _ _ _ Hrest). exact (render_sparse_idx _ _ _ _ _ _ Hr).
Qed.

End Invariant.

(** ** The sparse subsets of a constructed engine *)

(** C9 (as amended). The sparse subsets are fixed at construction by the
    strided-offset rule alone, with no random draw: index [j] of node [i] is
    [(17 i + 20 j) mod 240] for [j = 0..11], whatever the seed and the rates,
    and no later call changes them.  For the default eight nodes every
    subset has 12 pairwise distinct indices, and the subsets of two
    different nodes have no index in common (so they differ). *)
Theorem sparse_roots_strided_disjoint :
  (forall num_nodes : Z,
      _choose_sparse_roots_per_node num_nodes 12 =
      Some (map (fun i =>
                   map (fun j => ((17 * Z.of_nat i + 20 * Z.of_nat j) mod 240)%Z)
                       (seq 0 12))
                (range num_nodes))) /\
  (forall (G : Generator) num_nodes sample_rate control_rate seed self,
      init num_nodes sample_rate control_rate seed = Some self ->
      _choose_sparse_roots_per_node num_nodes 12 = Some (sparse_idx self)) /\
  (forall (G : Generator) (self self' : E8FractalPowerModule) calls outs,
      run self calls = Some (self', outs) -> sparse_idx self' = sparse_idx self) /\
  (exists sparse,
      _choose_sparse_roots_per_node 8 12 = Some sparse /\
      length sparse = 8%nat /\
      Forall (fun idx => length idx = 12%nat /\ NoDup idx) sparse /\
      ForallOrdPairs (fun a b => forall x, In x a -> ~ In x b) sparse).
Proof.
  split; [exact choose_sparse_roots_rule | split].
  - intros G n sr cr seed self. unfold init.
    destruct generate_e8_roots; [| discriminate].
    destruct (_choose_sparse_roots_per_node n 12); [| discriminate].
    destruct (map _ (range n)); [discriminate |].
    destruct (Req_dec_T cr 0); [discriminate |].
    intros [= <-]. reflexivity.
  - split; [intros G self self' calls outs; apply run_sparse_idx |].
    eexists. split; [vm_compute; reflexivity |].
    split; [reflexivity | split].
    + repeat (apply Forall_cons;
              [split; [reflexivity | apply nodupb_spec; vm_compute; reflexivity] |]).
      apply Forall_nil.
    + apply pairwise_disjointb_spec. vm_compute. reflexivity.
Qed.

(** C9 (counterexample). The subsets of nodes 0 and 1 are {0, 20, ..., 220}
    and {17, 37, ..., 237}: it is not the case that every two distinct nodes
    share an index. *)
Lemma sparse_subsets_do_not_overlap :
  ~ (forall sparse,
        _choose_sparse_roots_per_node 8 12 = Some sparse ->
        forall i j, (i < 8)%nat -> (j < 8)%nat -> i <> j ->
          exists x, In x (nth i sparse []) /\ In x (nth j sparse [])).
Proof.
  intros H.
  destruct (H _ eq_refl 0%nat 1%nat ltac:(lia) ltac:(lia) ltac:(lia))
    as (x & H0 & H1).
  revert H0 H1. vm_compute. intros H0 H1.
  repeat (destruct H0 as [<- | H0]; [intuition discriminate |]).
  exact H0.
Qed.

(** ** The theorems at the default engine *)

(** The engine of the quick-start: 8 nodes, 48 kHz, control rate 1 kHz, the
    default seed [0xE8E8E8E8], run on the congruential generator. *)
Lemma default_engine :
  exists self : @E8FractalPowerModule lcg,
    init 8 48000 1000 3907578088 = Some self /\
    num_nodes self = 8%Z /\ sample_rate self = 48000 /\
    _sample_counter self = 0%Z /\ _samples_per_control self = 48%Z /\
    wf self.
Proof.
  destruct (@init_some lcg 8 48000 1000 3907578088 ltac:(lia) ltac:(lra))
    as (self & Hinit & Hn & Hsr & _ & _ & Hc & Hspc & Hwf).
  exists self. split; [exact Hinit |]. split; [exact Hn |].
  split; [exact Hsr |]. split; [exact Hc |]. split; [| exact Hwf].
  rewrite Hspc. replace (48000 / 1000) with (IZR 48) by lra.
  rewrite py_round_integer. reflexivity.
Qed.

(** One second of audio at the default rates fires exactly 1000 control
    steps and returns 48000 samples per channel. *)
Lemma default_engine_one_second :
  exists (self self' : @E8FractalPowerModule lcg) L R,
    init 8 48000 1000 3907578088 = Some self /\
    render self 48000 0.2 = Some (self', 1000%nat, (L, R)) /\
    length L = Z.to_nat 48000 /\ length R = Z.to_nat 48000 /\
    _sample_counter self' = 0%Z.
Proof.
  destruct default_engine as (self & Hinit & _ & Hsr & Hc & Hspc & Hwf).
  destruct (render_closed self 48000 0.2 (wf_counter _ Hwf) ltac:(lia)
              ltac:(rewrite Hsr; lra))
    as (incs & mixL & mixR & E & _ & HL & HR).
  assert (Hk : ticks_for self 48000 = 1000%nat)
    by (unfold ticks_for; rewrite Hc, Hspc; reflexivity).
  rewrite Hk in E.
  do 4 eexists. split; [exact Hinit |]. split; [exact E |].
  rewrite !length_map, HL, HR.
  split; [reflexivity | split; [reflexivity |]].
  cbn [_sample_counter with_node_phase].
  destruct (after_samples_frame self 48000) as (_ & _ & _ & _ & _ & _ & ->).
  unfold counter_after. rewrite Hc, Hspc. reflexivity.
Qed.

(** C3 at the default engine, for 128 samples split as 100 + 0 + 28. *)
Lemma render_chunking_invariant_witness :
  exists self : @E8FractalPowerModule lcg,
    counter_ok self /\ sample_rate self <> 0 /\
    Forall (fun c => (0 <= fst c)%Z) [(100%Z, 0.2); (0%Z, 0.1); (28%Z, 0.3)] /\
    exists one many k out,
      render self (total_samples [(100%Z, 0.2); (0%Z, 0.1); (28%Z, 0.3)]) 0.2
      = Some (one, k, out) /\
      render_chunks self [(100%Z, 0.2); (0%Z, 0.1); (28%Z, 0.3)] = Some (many, k) /\
      k = ticks_for self (total_samples [(100%Z, 0.2); (0%Z, 0.1); (28%Z, 0.3)]) /\
      E8Torus.theta (torus one) = E8Torus.theta (torus many) /\
      E8Torus.omega (torus one) = E8Torus.omega (torus many) /\
      qs one = qs many /\
      with_node_phase one (_node_phase many) = many.
Proof.
  destruct default_engine as (self & _ & _ & Hsr & _ & _ & Hwf).
  assert (Hok : counter_ok self) by exact (wf_counter _ Hwf).
  assert (Hsr0 : sample_rate self <> 0) by (rewrite Hsr; lra).
  assert (Hpos : Forall (fun c : Z * R => (0 <= fst c)%Z)
                        [(100%Z, 0.2); (0%Z, 0.1); (28%Z, 0.3)])
    by (repeat constructor; simpl; lia).
  exists self. split; [exact Hok |]. split; [exact Hsr0 |]. split; [exact Hpos |].
  exact (render_chunking_invariant self _ 0.2 Hok Hsr0 Hpos).
Defined.




(** * Further properties of the module *)

(** ** The torus *)


(** ** The root table *)

Lemma is2_square : is2 * is2 = 1 / 2.
Proof.
  rewrite is2_eq. pose proof sqrt2_pos as Hs.
  pose proof (sqrt_sqrt 2 ltac:(lra)) as Hq.
  replace (1 / sqrt 2 * (1 / sqrt 2)) with (1 / (sqrt 2 * sqrt 2))
    by (field; lra).
  rewrite Hq. reflexivity.
Qed.

Lemma axis_pair_vector_norm (i j : nat) (a b : R) :
  (i < j < 8)%nat -> a * a = 1 -> b * b = 1 ->
  norm (axis_pair_vector i j a b) = 1.
Proof.
  intros Hij Ha Hb.
  assert (Hd : dot (axis_pair_vector i j a b) (axis_pair_vector i j a b)
               = a * a * (is2 * is2) + b * b * (is2 * is2)).
  { assert (Hi : In i (seq 0 8)) by (apply in_seq; lia).
    assert (Hj : In j (seq 0 8)) by (apply in_seq; lia).
    unfold axis_pair_vector. cbn [seq In] in Hi, Hj.
    destruct Hi as [<-|[<-|[<-|[<-|[<-|[<-|[<-|[<-|[]]]]]]]]];
      destruct Hj as [<-|[<-|[<-|[<-|[<-|[<-|[<-|[<-|[]]]]]]]]];
      try lia; cbn [seq map dot Nat.eqb]; ring. }
  unfold norm. rewrite Hd, Ha, Hb, is2_square.
  replace (1 * (1 / 2) + 1 * (1 / 2)) with 1 by lra. apply sqrt_1.
Qed.

Lemma family_A_unit_norm : Forall (fun v => norm v = 1) family_A.
Proof.
  rewrite family_A_pairs. apply Forall_flat_map.
  assert (Hm : -1.0 * -1.0 = 1) by lra.
  assert (Hp : 1.0 * 1.0 = 1) by lra.
  unfold axis_pairs. cbn [flat_map seq map app Nat.add Nat.sub].
  repeat (apply Forall_cons;
          [ unfold sign_pairs; cbn [map fst snd];
            repeat (apply Forall_cons;
                    [apply axis_pair_vector_norm; [lia | assumption | assumption] |]);
            apply Forall_nil |]).
  apply Forall_nil.
Qed.

(** X2. Each of the 240 generated roots, of Family A as of Family B, has
    Euclidean norm 1. *)
Theorem e8_roots_unit_norm :
  exists roots,
    generate_e8_roots = Some roots /\ Forall (fun v => norm v = 1) roots.
Proof.
  exists (family_A ++ map unit_pattern even_masks).
  split; [exact generate_e8_roots_eq |].
  apply Forall_app. split; [exact family_A_unit_norm |].
  apply Forall_forall. intros v Hv.
  apply in_map_iff in Hv as (m & <- & _). apply unit_pattern_norm.
Qed.

(** ** Sparse coupling for any number of nodes and roots per node *)

(** X3. [_choose_sparse_roots_per_node] raises for 0 roots per node;
    otherwise it returns one subset per node, each with [roots_per_node]
    indices (none when that number is negative), and every index addresses
    one of the 240 roots. *)
Theorem choose_sparse_roots_in_range (num_nodes roots_per_node : Z) :
  (roots_per_node = 0%Z ->
   _choose_sparse_roots_per_node num_nodes roots_per_node = None) /\
  (roots_per_node <> 0%Z ->
   exists sparse,
     _choose_sparse_roots_per_node num_nodes roots_per_node = Some sparse /\
     length sparse = Z.to_nat num_nodes /\
     Forall (fun idx =>
               length idx = Z.to_nat roots_per_node /\
               Forall (fun k => (0 <= k < 240)%Z) idx) sparse).
Proof.
  unfold _choose_sparse_roots_per_node. split.
  - intros ->. reflexivity.
  - intros Hne. apply Z.eqb_neq in Hne. rewrite Hne.
    eexists. split; [reflexivity |]. split.
    + unfold range. now rewrite length_map, length_seq.
    + apply Forall_forall. intros idx Hidx.
      apply in_map_iff in Hidx as (i & <- & _). split.
      * unfold range. now rewrite length_map, length_seq.
      * apply Forall_forall. intros k Hk.
        apply in_map_iff in Hk as (j & <- & _).
        apply Z.mod_pos_bound. lia.
Qed.

(** ** Macros by name *)

Ltac macro_name_cases k :=
  destruct (String.eqb_spec k "CosmicDepth"); [subst k |];
  [| destruct (String.eqb_spec k "PhiDrift"); [subst k |]];
  [| | destruct (String.eqb_spec k "CoxeterPhase"); [subst k |]];
  [| | | destruct (String.eqb_spec k "EntropyBloom"); [subst k |]];
  [| | | | destruct (String.eqb_spec k "TernaryBias"); [subst k |]];
  [| | | | | destruct (String.eqb_spec k "PhaseGain"); [subst k |]];
  [| | | | | | destruct (String.eqb_spec k "AmpGain"); [subst k |]];
  [| | | | | | | destruct (String.eqb_spec k "EnergyFlow"); [subst k |]];
  [| | | | | | | | destruct (String.eqb_spec k "SpatialWarp"); [subst k |]].





(** X5. Setting a macro by its name and reading it back gives the value set
    (truncated to an integer for CosmicDepth), and no other macro changes. *)
Theorem set_macro_round_trip (m : Macros) (k : string) (v : R) :
  In k macro_names ->
  macro_value (set_macro m k v) k
  = Some (if String.eqb k "CosmicDepth" then IZR (int_of_float v) else v) /\
  (forall k', k' <> k -> macro_value (set_macro m k v) k' = macro_value m k').
Proof.
  intros Hk. destruct m. unfold set_macro.
  macro_name_cases k;
    try (exfalso; unfold macro_names in Hk; simpl in Hk;
         repeat (destruct Hk as [Hk | Hk]; [congruence |]); exact Hk);
    (split; [reflexivity |]);
    intros k' Hk'; unfold macro_value;
    macro_name_cases k'; try reflexivity; congruence.
Qed.

Lemma set_macro_round_trip_witness :
  In "PhaseGain"%string macro_names /\
  macro_value (set_macro default_macros "PhaseGain" 0.5) "PhaseGain"
  = Some (if String.eqb "PhaseGain" "CosmicDepth"
          then IZR (int_of_float 0.5) else 0.5) /\
  (forall k', k' <> "PhaseGain"%string ->
              macro_value (set_macro default_macros "PhaseGain" 0.5) k'
              = macro_value default_macros k').
Proof.
  assert (H : In "PhaseGain"%string macro_names) by (simpl; tauto).
  split; [exact H |].
  exact (set_macro_round_trip default_macros "PhaseGain" 0.5 H).
Defined.

(** X6. An override of CosmicDepth is stored as [int(v)]: the integer
    obtained by dropping the fractional part of [v], towards zero. *)
Theorem set_macro_cosmic_depth_truncates (m : Macros) (v : R) :
  Rabs (IZR (CosmicDepth (set_macro m "CosmicDepth" v))) <= Rabs v
  < Rabs (IZR (CosmicDepth (set_macro m "CosmicDepth" v))) + 1 /\
  (0 <= v -> (0 <= CosmicDepth (set_macro m "CosmicDepth" v))%Z) /\
  (v <= 0 -> (CosmicDepth (set_macro m "CosmicDepth" v) <= 0)%Z).
Proof.
  destruct m. cbn [set_macro String.eqb Ascii.eqb Bool.eqb CosmicDepth].
  unfold int_of_float.
  destruct (Rle_dec 0 v) as [Hv | Hv].
  - destruct (base_Int_part v) as [Hlo Hhi].
    assert (H0 : (0 <= Int_part v)%Z).
    { apply le_IZR. destruct (Z_lt_le_dec (Int_part v) 0) as [Hneg |]; [| now apply IZR_le].
      exfalso. assert (Int_part v <= -1)%Z by lia.
      apply IZR_le in H. lra. }
    apply IZR_le in H0 as H0R.
    rewrite (Rabs_pos_eq _ H0R), (Rabs_pos_eq _ Hv).
    split; [lra | split; [intros _; exact H0 |]].
    intros Hle. assert (v = 0) as -> by lra.
    apply le_IZR. lra.
  - apply Rnot_le_lt in Hv.
    destruct (base_Int_part (- v)) as [Hlo Hhi].
    assert (H0 : (0 <= Int_part (- v))%Z).
    { destruct (Z_lt_le_dec (Int_part (- v)) 0) as [Hneg |]; [| assumption].
      exfalso. assert (Int_part (- v) <= -1)%Z by lia.
      apply IZR_le in H. lra. }
    apply IZR_le in H0 as H0R.
    rewrite opp_IZR, Rabs_Ropp, (Rabs_pos_eq _ H0R), (Rabs_left _ Hv).
    split; [lra | split; [intros Hpos; lra | intros _; lia]].
Qed.

(** ** What a control step guarantees *)

Lemma clip_bounds (x lo hi : R) : lo <= hi -> lo <= clip x lo hi <= hi.
Proof.
  intros H. unfold clip. split.
  - apply Rmin_glb; [apply Rmax_r | exact H].
  - apply Rmin_r.
Qed.





Section ControlStep.

Context `{G : Generator}.

Implicit Types self : E8FractalPowerModule.


(** The engine on which [control_step] runs its loop over the nodes. *)
Lemma control_step_unfold self :
  exists e1 pg ag bias lam dt ph_all,
    control_step self
    = fold_left (control_node pg ag bias lam dt ph_all)
                (range (num_nodes self)) e1 /\
    pg = PhaseGain (macros self) /\
    torus e1 = E8Torus.advance (torus (_apply_torus_macros self)) dt /\
    rng e1 = rng (_apply_torus_macros self) /\
    qs e1 = qs self /\ _dphi e1 = _dphi self /\
    _damp e1 = _damp self /\ _morph e1 = _morph self.
Proof.
  unfold control_step.
  destruct (apply_torus_macros_frame self) as (Hn & _ & _ & Hm & _).
  assert (Hsame : qs (_apply_torus_macros self) = qs self /\
                  _dphi (_apply_torus_macros self) = _dphi self /\
                  _damp (_apply_torus_macros self) = _damp self /\
                  _morph (_apply_torus_macros self) = _morph self).
  { unfold _apply_torus_macros. destruct (Rlt_dec _ _).
    - destruct (uniform _ _ _ _); destruct (uniform _ _ _ _). repeat split.
    - repeat split. }
  destruct Hsame as (Hq & Hdp & Hda & Hmo).
  set (e0 := _apply_torus_macros self) in *.
  exists (with_torus_rng e0 (E8Torus.advance (torus e0) (1.0 / control_rate e0))
                         (rng e0)).
  exists (PhaseGain (macros e0)), (AmpGain (macros e0)), (TernaryBias (macros e0)).
  exists 0.8, (1.0 / control_rate e0).
  exists (E8Torus.phases (E8Torus.advance (torus e0) (1.0 / control_rate e0))
                         (roots e0)).
  cbn [num_nodes macros torus rng qs _dphi _damp _morph with_torus_rng].
  rewrite Hn, Hm.
  split; [reflexivity |]. split; [reflexivity |].
  split; [reflexivity |]. split; [reflexivity |].
  split; [exact Hq |]. split; [exact Hdp |]. split; [exact Hda | exact Hmo].
Qed.




Lemma uniform_state (low high : R) (size : nat) (g : rng_state) :
  snd (uniform low high size g) = skip_draws size g.
Proof.
  revert g. induction size as [|k IH]; intros g; simpl.
  - reflexivity.
  - destruct (random g) as [u g1] eqn:E. specialize (IH g1).
    destruct (uniform low high k g1) as [rest g2]. simpl in *.
    exact IH.
Qed.

Lemma skip_draws_add (a b : nat) (g : rng_state) :
  skip_draws b (skip_draws a g) = skip_draws (a + b) g.
Proof.
  revert g. induction a as [|a IH]; intros g; simpl; [reflexivity | apply IH].
Qed.

(** X10. A control step draws from the generator only when EntropyBloom
    exceeds 1e-6, and then exactly 16 doubles; otherwise the generator is
    left as it was and the angular velocities are the ramp
    [PhiDrift * (0.6 + 0.1 k)], k = 0..7. *)
Theorem control_step_random_draws self :
  (EntropyBloom (macros self) <= 1e-6 ->
   rng (control_step self) = rng self /\
   E8Torus.omega (torus (control_step self))
   = map (fun k => PhiDrift (macros self) * (0.6 + 0.1 * INR k)) (seq 0 8)) /\
  (1e-6 < EntropyBloom (macros self) ->
   rng (control_step self) = skip_draws 16 (rng self)).
Proof.
  destruct (control_step_unfold self)
    as (e1 & pg & ag & bias & lam & dt & ph & -> & _ & Ht & Hr & _).
  destruct (fold_control_node_frame pg ag bias lam dt ph
              (range (num_nodes self)) e1) as (_ & -> & ->).
  rewrite Ht, Hr. unfold _apply_torus_macros. split.
  - intros Hle. destruct (Rlt_dec _ _) as [Hlt | _]; [lra |].
    split; reflexivity.
  - intros Hlt. destruct (Rlt_dec _ _) as [_ | Hn]; [| contradiction].
    pose proof (uniform_state (-0.05) 0.05 8 (rng self)) as H1.
    destruct (uniform (-0.05) 0.05 8 (rng self)) as [u1 g1].
    pose proof (uniform_state (-0.002) 0.002 8 g1) as H2.
    destruct (uniform (-0.002) 0.002 8 g1) as [u2 g2].
    cbn [snd rng with_torus_rng] in *.
    rewrite H2, H1. apply (skip_draws_add 8 8).
Qed.

(** X11. A control step never reads the angular velocities left by the
    previous step: they are recomputed from the macros, so replacing them
    by any other array changes nothing of the outcome. *)
Theorem control_step_ignores_old_velocities self (omega' : vec) :
  control_step
    (with_torus_rng self (E8Torus.mk (E8Torus.theta (torus self)) omega')
                    (rng self))
  = control_step self.
Proof.
  unfold control_step, _apply_torus_macros.
  cbn [macros torus rng with_torus_rng E8Torus.theta].
  destruct (Rlt_dec _ _); [| reflexivity].
  destruct (uniform (-0.05) 0.05 8 (rng self)) as [u1 g1].
  destruct (uniform (-0.002) 0.002 8 g1) as [u2 g2]. reflexivity.
Qed.

End ControlStep.



(** ** The scheduler and the renderer: edge cases and outputs *)

Lemma tanh_zero : tanh 0 = 0.
Proof.
  rewrite tanh_exp, Ropp_0, exp_0. unfold Rdiv. ring.
Qed.

Lemma nth_map_fixing_zero (f : R -> R) (l : vec) (t : nat) :
  f 0 = 0 -> nth t (map f l) 0 = f (nth t l 0).
Proof.
  intros Hf. revert t. induction l as [|x l IH]; intros [|t]; simpl;
    auto.
Qed.

Lemma get_all_zero (row : vec) (t : nat) :
  Forall (fun x => x = 0) row -> get row t = 0.
Proof.
  intros Hrow. unfold get.
  destruct (Nat.lt_ge_cases t (length row)) as [Hlt | Hge].
  - rewrite Forall_forall in Hrow. apply Hrow, nth_In, Hlt.
  - now apply nth_overflow.
Qed.

Lemma vsum_all_zero (a : vec) : Forall (fun x => x = 0) a -> vsum a = 0.
Proof.
  induction 1 as [|x a Hx _ IH]; simpl; [reflexivity | lra].
Qed.

Lemma sum_axis0_all_zero (N : nat) (sig : list vec) :
  Forall (Forall (fun x => x = 0)) sig ->
  Forall (fun x => x = 0) (sum_axis0 N sig).
Proof.
  intros Hsig. unfold sum_axis0. apply Forall_forall. intros y Hy.
  apply in_map_iff in Hy as (t & <- & _).
  apply vsum_all_zero. apply Forall_forall. intros z Hz.
  apply in_map_iff in Hz as (row & <- & Hrow).
  apply get_all_zero. rewrite Forall_forall in Hsig. now apply Hsig.
Qed.

Lemma map2_scale_all_zero (rows : list vec) (amp : vec) :
  Forall (fun a => a = 0) amp ->
  Forall (Forall (fun x => x = 0))
         (map2 (fun row a => map (fun x => x * a) row) rows amp).
Proof.
  intros Hamp. revert rows.
  induction Hamp as [|a amp Ha _ IH]; intros [|row rows]; simpl;
    try constructor.
  - subst a. apply Forall_forall. intros y Hy.
    apply in_map_iff in Hy as (x & <- & _). ring.
  - apply IH.
Qed.

Section RendererEdges.

Context `{G : Generator}.

Implicit Types self : E8FractalPowerModule.

Lemma control_loop_macros (fuel : nat) self (remaining : Z) (ticks : nat)
  self' k :
  control_loop fuel self remaining ticks = Some (self', k) ->
  macros self' = macros self.
Proof.
  intros Hrun.
  destruct (control_loop_with_macros fuel self (macros self) remaining ticks
              eq_refl) as [_ Hm].
  exact (Hm _ _ Hrun).
Qed.

(** The two channels as functions of the mono mix. *)
Lemma render_channels self (N : Z) (g : R) self' k Lc Rc :
  render self N g = Some (self', k, (Lc, Rc)) ->
  exists (mix : vec) (pan : R),
    Lc = map (fun x => tanh ((1.0 - pan) * x * EnergyFlow (macros self))) mix /\
    Rc = map (fun x => tanh (pan * x * EnergyFlow (macros self))) mix /\
    0 <= pan <= 1 /\
    length mix = Z.to_nat N /\
    (g = 0 -> Forall (fun x => x = 0) mix).
Proof.
  unfold render. destruct (N <? 0)%Z; [discriminate |].
  destruct (Req_dec_T _ _); [discriminate |].
  unfold process_control_for_samples.
  destruct (control_loop (Z.to_nat N) self N 0) as [[e t] |] eqn:Hloop;
    [| discriminate].
  pose proof (control_loop_macros _ _ _ _ _ _ Hloop) as Hm.
  intros [= _ _ <- <-]. rewrite Hm.
  do 2 eexists.
  split; [rewrite !map_map; reflexivity |].
  split; [rewrite !map_map; reflexivity |].
  split; [| split].
  - pose proof (SIN_bound (get (E8Torus.theta (torus e)) 4)). lra.
  - unfold sum_axis0. now rewrite length_map, length_seq.
  - intros ->. apply sum_axis0_all_zero, map2_scale_all_zero.
    apply Forall_forall. intros a Ha.
    apply in_map_iff in Ha as (d & <- & _). ring.
Qed.

(** X12. [process_control_for_samples] does nothing for a sample count that
    is zero or negative.  For [n >= 0] samples it fires
    [(counter + n) // samples_per_control] control steps, one after the
    other, and leaves [(counter + n) % samples_per_control] in the counter:
    samples short of a full period are carried over to the next call. *)
Theorem process_control_ticks self (n : Z) :
  ((n <= 0)%Z -> process_control_for_samples self n = Some (self, 0%nat)) /\
  (counter_ok self -> (0 <= n)%Z ->
   exists self' k,
     process_control_for_samples self n = Some (self', k) /\
     Z.of_nat k = ((_sample_counter self + n) / _samples_per_control self)%Z /\
     _sample_counter self'
     = ((_sample_counter self + n) mod _samples_per_control self)%Z /\
     self' = with_sample_counter (Nat.iter k control_step self)
                                 (_sample_counter self')).
Proof.
  split.
  - intros Hn. unfold process_control_for_samples.
    replace (Z.to_nat n) with 0%nat by lia. cbn [control_loop].
    replace (n >? 0)%Z with false by (symmetry; lia). reflexivity.
  - intros Hok Hn. rewrite process_control_closed by assumption.
    do 2 eexists. split; [reflexivity |].
    unfold ticks_for, after_samples, counter_after.
    cbn [_sample_counter with_sample_counter].
    split; [| split; reflexivity].
    apply Z2Nat.id. apply Z.div_pos; unfold counter_ok in Hok; lia.
Qed.

(** X13. On an engine whose counter is below its threshold, [render] raises
    exactly when the sample count is negative or the sample rate is zero. *)
Theorem render_raises_iff self (N : Z) (g : R) :
  counter_ok self ->
  (render self N g = None <-> (N < 0)%Z \/ sample_rate self = 0).
Proof.
  intros Hok. split.
  - intros Hnone.
    destruct (Z_lt_le_dec N 0) as [Hneg | Hpos]; [now left |].
    destruct (Req_dec_T (sample_rate self) 0) as [Hz | Hnz]; [now right |].
    destruct (render_closed self N g Hok Hpos Hnz) as (incs & mL & mR & E & _).
    rewrite E in Hnone. discriminate.
  - intros [Hneg | Hz]; unfold render.
    + replace (N <? 0)%Z with true by (symmetry; lia). reflexivity.
    + destruct (N <? 0)%Z; [reflexivity |].
      destruct (Req_dec_T _ _) as [_ | Hnz]; [reflexivity | contradiction].
Qed.


(** X15. The two channels never have opposite signs: every left sample
    times the right sample at the same index is non-negative, and the two
    channels have the same length. *)
Theorem render_channels_same_sign self (N : Z) (g : R) self' k Lc Rc :
  render self N g = Some (self', k, (Lc, Rc)) ->
  length Lc = length Rc /\ forall t, 0 <= get Lc t * get Rc t.
Proof.
  intros Hr.
  destruct (render_channels _ _ _ _ _ _ _ Hr) as (mix & pan & -> & -> & Hpan & _).
  split; [now rewrite !length_map |].
  intros t. unfold get.
  set (e := EnergyFlow (macros self)).
  assert (H0 : forall a, tanh (a * 0 * e) = 0)
    by (intros a; rewrite Rmult_0_r, Rmult_0_l; apply tanh_zero).
  rewrite (nth_map_fixing_zero (fun x => tanh ((1.0 - pan) * x * e)))
    by apply H0.
  rewrite (nth_map_fixing_zero (fun x => tanh (pan * x * e))) by apply H0.
  set (x := nth t mix 0).
  assert (Hsign : forall a y, 0 <= a -> 0 <= y -> 0 <= tanh (a * y)).
  { intros a y Ha Hy. destruct (Req_dec (a * y) 0) as [-> | Hne].
    - rewrite tanh_zero. lra.
    - apply Rlt_le, tanh_pos. nra. }
  assert (Hodd : forall y, tanh (- y) = - tanh y).
  { intros y. rewrite !tanh_exp, Ropp_involutive.
    pose proof (exp_pos y). pose proof (exp_pos (- y)). field. lra. }
  destruct (Rle_dec 0 (x * e)) as [Hxe | Hxe].
  - replace ((1.0 - pan) * x * e) with ((1.0 - pan) * (x * e)) by ring.
    replace (pan * x * e) with (pan * (x * e)) by ring.
    apply Rmult_le_pos; apply Hsign; lra.
  - apply Rnot_le_lt in Hxe.
    replace ((1.0 - pan) * x * e) with (- ((1.0 - pan) * (- (x * e)))) by ring.
    replace (pan * x * e) with (- (pan * (- (x * e)))) by ring.
    rewrite !Hodd.
    pose proof (Hsign (1.0 - pan) (- (x * e)) ltac:(lra) ltac:(lra)).
    pose proof (Hsign pan (- (x * e)) ltac:(lra) ltac:(lra)).
    nra.
Qed.

End RendererEdges.

(** X13 at the default engine, for a negative sample count. *)
Lemma render_raises_iff_witness :
  exists self : @E8FractalPowerModule lcg,
    counter_ok self /\
    (render self (-1) 0.2 = None <-> (-1 < 0)%Z \/ sample_rate self = 0).
Proof.
  destruct default_engine as (self & _ & _ & _ & _ & _ & Hwf).
  assert (Hok : counter_ok self) by exact (wf_counter _ Hwf).
  exists self. split; [exact Hok |].
  exact (render_raises_iff self (-1) 0.2 Hok).
Defined.



(** X15 on four samples of the default engine. *)
Lemma render_channels_same_sign_witness :
  exists (self self' : @E8FractalPowerModule lcg) k Lc Rc,
    render self 4 0.2 = Some (self', k, (Lc, Rc)) /\
    length Lc = length Rc /\ forall t, 0 <= get Lc t * get Rc t.
Proof.
  destruct default_engine as (self & _ & _ & Hsr & _ & _ & Hwf).
  destruct (render_closed self 4 0.2 (wf_counter _ Hwf) ltac:(lia)
              ltac:(rewrite Hsr; lra))
    as (incs & mL & mR & E & _).
  do 5 eexists. split; [exact E |].
  exact (render_channels_same_sign self 4 0.2 _ _ _ _ E).
Defined.

(** ** Engines reached through the public interface *)

Section Reachable.

Context `{G : Generator}.

Implicit Types self : E8FractalPowerModule.

Lemma run_output_sizes (calls : list call) :
  forall self self' outs,
    run self calls = Some (self', outs) ->
    map (fun o => length (fst o)) outs = requested_sizes calls /\
    map (fun o => length (snd o)) outs = requested_sizes calls.
Proof.
  induction calls as [|[overrides | n g] rest IH]; intros self self' outs Hrun.
  - injection Hrun as _ <-. split; reflexivity.
  - cbn [run] in Hrun. exact (IH _ _ _ Hrun).
  - cbn [run] in Hrun.
    destruct (render self n g) as [[[e k] [Lc Rc]] |] eqn:Hr; [| discriminate].
    destruct (run e rest) as [[e' os] |] eqn:Hrest; [| discriminate].
    injection Hrun as _ <-.
    destruct (render_channels _ _ _ _ _ _ _ Hr)
      as (mix & pan & -> & -> & _ & Hlen & _).
    destruct (IH _ _ _ Hrest) as [H1 H2].
    cbn [requested_sizes flat_map map fst snd app].
    fold (requested_sizes rest).
    rewrite !length_map, Hlen, H1, H2. split; reflexivity.
Qed.

(** X16. Every engine reached from a constructed one, by any sequence of
    [set_macros] and [render] calls that does not raise, keeps the shape
    invariant: eight torus angles, one entry per node in every per-node
    array, oscillator phases in [[0, 2 pi)] and a sample counter below the
    control period.  Every [render] call of the sequence returned two
    channels of the length it was asked for. *)
Theorem reachable_engine_invariant (n : Z) (sr cr : R) (seed : Z)
  (calls : list call) self self' outs :
  init n sr cr seed = Some self ->
  run self calls = Some (self', outs) ->
  wf self' /\
  map (fun o => length (fst o)) outs = requested_sizes calls /\
  map (fun o => length (snd o)) outs = requested_sizes calls.
Proof.
  intros Hinit Hrun. split.
  - exact (run_wf calls _ _ _ (init_wf _ _ _ _ _ Hinit) Hrun).
  - exact (run_output_sizes calls _ _ _ Hrun).
Qed.

End Reachable.

(** X16 at the default engine, for a macro change and a block of 0 samples. *)
Lemma reachable_engine_invariant_witness :
  exists (self self' : @E8FractalPowerModule lcg) outs,
    init 8 48000 1000 3907578088 = Some self /\
    run self [SetMacros [("AmpGain"%string, 0.5)]; Render 3 0.2]
    = Some (self', outs) /\
    wf self' /\
    map (fun o => length (fst o)) outs
    = requested_sizes [SetMacros [("AmpGain"%string, 0.5)]; Render 3 0.2] /\
    map (fun o => length (snd o)) outs
    = requested_sizes [SetMacros [("AmpGain"%string, 0.5)]; Render 3 0.2].
Proof.
  destruct default_engine as (self & Hinit & _ & Hsr & _ & _ & Hwf).
  destruct (render_closed (set_macros self [("AmpGain"%string, 0.5)]) 3 0.2
              (wf_counter _ Hwf) ltac:(lia)
              ltac:(cbn [set_macros sample_rate with_macros]; rewrite Hsr; lra))
    as (incs & mL & mR & E & _).
  assert (Hrun : exists self' outs,
             run self [SetMacros [("AmpGain"%string, 0.5)]; Render 3 0.2]
             = Some (self', outs)).
  { cbn [run]. rewrite E. do 2 eexists. reflexivity. }
  destruct Hrun as (self' & outs & Hrun).
  exists self, self', outs. split; [exact Hinit |]. split; [exact Hrun |].
  exact (reachable_engine_invariant 8 48000 1000 3907578088 _ self self' outs
           Hinit Hrun).
Defined.

(** ** The waveform morph *)



(** ** The soft projection, applied twice *)



(** ** The constructor *)

Lemma fold_left_Rmax_spec (l : vec) (a : R) :
  a <= fold_left Rmax l a /\
  Forall (fun x => x <= fold_left Rmax l a) l /\
  (fold_left Rmax l a = a \/ In (fold_left Rmax l a) l).
Proof.
  revert a. induction l as [|x l IH]; intros a; cbn [fold_left].
  - split; [lra |]. split; [constructor | now left].
  - destruct (IH (Rmax a x)) as (H1 & H2 & H3).
    pose proof (Rmax_l a x) as Hl. pose proof (Rmax_r a x) as Hr.
    split; [lra |]. split.
    + constructor; [lra | exact H2].
    + destruct H3 as [E | Hin]; [| right; now right].
      rewrite E. unfold Rmax. destruct (Rle_dec a x); [right; now left | now left].
Qed.




Section ConstructorEdges.

Context `{G : Generator}.

Implicit Types self : E8FractalPowerModule.





End ConstructorEdges.


(** ** The conversion to 16-bit PCM *)

Lemma int_of_float_bound (y : R) (b : Z) :
  (0 <= b)%Z -> Rabs y < IZR b + 1 -> (- b <= int_of_float y <= b)%Z.
Proof.
  intros Hb Hy. unfold int_of_float.
  destruct (Rle_dec 0 y) as [H0 | H0].
  - rewrite Rabs_pos_eq in Hy by exact H0.
    destruct (base_Int_part y) as [Hlo Hhi].
    assert (H1 : (Int_part y < b + 1)%Z)
      by (apply lt_IZR; rewrite plus_IZR; lra).
    assert (H2 : (-1 < Int_part y)%Z) by (apply lt_IZR; lra).
    lia.
  - apply Rnot_le_lt in H0. rewrite Rabs_left in Hy by exact H0.
    destruct (base_Int_part (- y)) as [Hlo Hhi].
    assert (H1 : (Int_part (- y) < b + 1)%Z)
      by (apply lt_IZR; rewrite plus_IZR; lra).
    assert (H2 : (-1 < Int_part (- y))%Z) by (apply lt_IZR; lra).
    lia.
Qed.

Lemma Forall_abs_pairs (m : R) (data : list (R * R)) :
  Forall (fun x => x <= m)
         (flat_map (fun f => [Rabs (fst f); Rabs (snd f)]) data) ->
  Forall (fun f => Rabs (fst f) <= m /\ Rabs (snd f) <= m) data.
Proof.
  induction data as [|f data IH]; intros H; [constructor |].
  cbn [flat_map app] in H.
  inversion H as [|? ? Ha H4]; subst.
  inversion H4 as [|? ? Hb H5]; subst.
  constructor; [split; assumption | exact (IH H5)].
Qed.

(** X21. The PCM conversion of [demo_to_wav] fails exactly on channels of
    different lengths or on empty channels (a render of zero samples cannot
    be written: the peak of an empty array is undefined).  Otherwise it
    gives one frame per sample, and the normalisation to 0.9 of full scale
    keeps every integer sample within [[-29490, 29490]], inside the 16-bit
    range, whatever the amplitudes of the input. *)
Theorem pcm_frames_in_range (left right : vec) :
  (pcm_frames left right = None <->
   length left <> length right \/ left = []) /\
  (forall frames,
      pcm_frames left right = Some frames ->
      length frames = length left /\
      Forall (fun f => (-29490 <= fst f <= 29490)%Z /\
                       (-29490 <= snd f <= 29490)%Z) frames).
Proof.
  unfold pcm_frames.
  destruct (Nat.eqb_spec (length left) (length right)) as [Hlen | Hlen];
    cbn [negb].
  2:{ split; [split; [now left | reflexivity] | discriminate]. }
  destruct left as [|l0 left]; cbn [combine flat_map amax].
  { split; [split; [now right | reflexivity] | discriminate]. }
  destruct right as [|r0 right]; [discriminate |].
  cbn [combine flat_map amax app fst snd].
  set (data := combine left right).
  set (rest := Rabs r0 :: flat_map (fun f => [Rabs (fst f); Rabs (snd f)]) data).
  set (top := fold_left Rmax rest (Rabs l0)).
  split.
  { split; [discriminate |]. intros [H | H]; [contradiction | discriminate]. }
  intros frames Hf. injection Hf as <-.
  split.
  { cbn [map length]. unfold data.
    rewrite length_map, length_combine. cbn [length] in Hlen. lia. }
  destruct (fold_left_Rmax_spec rest (Rabs l0)) as (H1 & H2 & _).
  fold top in H1, H2.
  pose proof (Rmax_l 1e-9 top) as Hp1. pose proof (Rmax_r 1e-9 top) as Hp2.
  set (peak := Rmax 1e-9 top) in *.
  assert (Hscale : forall x, Rabs x <= top ->
            (-29490 <= int_of_float (x / peak * 0.9 * 32767.0) <= 29490)%Z).
  { intros x Hx. apply (int_of_float_bound _ 29490); [lia |].
    assert (Hq : Rabs (x / peak) <= 1).
    { unfold Rdiv. rewrite Rabs_mult, Rabs_inv, (Rabs_pos_eq peak) by lra.
      apply Rmult_le_reg_r with peak; [lra |].
      rewrite Rmult_assoc, Rinv_l by lra. lra. }
    replace (x / peak * 0.9 * 32767.0) with (x / peak * 29490.3) by lra.
    rewrite Rabs_mult, (Rabs_pos_eq 29490.3) by lra.
    pose proof (Rabs_pos (x / peak)). nra. }
  assert (Hall : Forall (fun f => Rabs (fst f) <= top /\ Rabs (snd f) <= top)
                        ((l0, r0) :: data)).
  { constructor.
    - cbn [fst snd]. split; [exact H1 |].
      unfold rest in H2. now inversion H2.
    - unfold rest in H2. inversion H2 as [|? ? _ H3]; subst.
      now apply Forall_abs_pairs. }
  change ((int_of_float (l0 / peak * 0.9 * 32767.0),
           int_of_float (r0 / peak * 0.9 * 32767.0))
          :: map (fun f => (int_of_float (fst f / peak * 0.9 * 32767.0),
                            int_of_float (snd f / peak * 0.9 * 32767.0))) data)
    with (map (fun f => (int_of_float (fst f / peak * 0.9 * 32767.0),
                         int_of_float (snd f / peak * 0.9 * 32767.0)))
              ((l0, r0) :: data)).
  apply Forall_map. eapply Forall_impl; [| exact Hall].
  intros f [Ha Hb]. cbn [fst snd]. split; apply Hscale; assumption.
Qed.

(** ** Rendering in blocks *)










Section Blocks.

Context `{G : Generator}.

Implicit Types self : E8FractalPowerModule.

(** [render] through the closed form of the control processing. *)
Lemma render_synth self (N : Z) (g : R) :
  counter_ok self -> (0 <= N)%Z -> sample_rate self <> 0 ->
  render self N g
  = Some (let e := after_samples self N in
          let incs := phase_incs (two_pi / sample_rate self) e in
          let pan := 0.5 + 0.5 * sin (get (E8Torus.theta (torus e)) 4) in
          let mix := voices_mix (Z.to_nat N) (_node_phase e) incs (_morph e)
                       (map (fun a => g * a) (_damp e)) in
          (with_node_phase e (advance_phases (IZR N) (_node_phase e) incs),
           ticks_for self N,
           (map tanh (map (fun x => x * EnergyFlow (macros e))
                          (map (fun x => (1.0 - pan) * x) mix)),
            map tanh (map (fun x => x * EnergyFlow (macros e))
                          (map (fun x => pan * x) mix))))).
Proof.
  intros Hok HN Hsr. unfold render.
  replace (N <? 0)%Z with false by (symmetry; lia).
  destruct (Req_dec_T (sample_rate self) 0) as [E | _]; [contradiction |].
  rewrite process_control_closed by assumption. reflexivity.
Qed.


End Blocks.


Section OscillatorRange.

Context `{G : Generator}.

Implicit Types self : E8FractalPowerModule.

Lemma phase_incs_range (k : R) self :
  0 <= k ->
  length (phase_incs k self)
  = Nat.min (length (_base_freq self)) (length (_dphi self)) /\
  Forall (fun inc => k * 1 <= inc <= k * 20000) (phase_incs k self).
Proof.
  intros Hk. unfold phase_incs. split.
  - rewrite length_map, length_map2, length_map. reflexivity.
  - apply Forall_map.
    generalize (map (fun d => d / two_pi) (_dphi self)).
    induction (_base_freq self) as [|b bs IH]; intros [|d ds]; cbn [map2];
      constructor; [| apply IH].
    pose proof (clip_bounds (b + d) 1.0 20000.0 ltac:(lra)) as Hc.
    split; apply Rmult_le_compat_l; lra.
Qed.

(** X23. Whatever the modulation, [render] advances the phase of every
    oscillator at a frequency between 1 Hz and 20 kHz: on an engine that
    satisfies the shape invariant and has a positive sample rate, the new
    phase of a node is its old phase plus [N] times an increment per
    sample that lies between [2 pi * 1 / sample_rate] and
    [2 pi * 20000 / sample_rate], wrapped into [[0, 2 pi)]. *)
Theorem render_oscillator_range self (N : Z) (g : R) :
  wf self -> (0 <= N)%Z -> 0 < sample_rate self ->
  exists self' k out incs,
    render self N g = Some (self', k, out) /\
    length incs = Z.to_nat (num_nodes self) /\
    Forall (fun inc => two_pi / sample_rate self * 1 <= inc
                       <= two_pi / sample_rate self * 20000) incs /\
    _node_phase self'
    = map2 (fun p inc => fmod (p + inc * IZR N) two_pi) (_node_phase self) incs.
Proof.
  intros Hwf HN Hsr.
  pose proof (wf_counter _ Hwf) as Hok.
  rewrite (render_synth self N g Hok HN ltac:(lra)). cbv zeta.
  pose proof (after_samples_wf self N Hwf) as Hwf'.
  destruct (after_samples_frame self N) as (Hn & _ & _ & Hp & _).
  assert (Hk : 0 <= two_pi / sample_rate self).
  { pose proof two_pi_pos. apply Rlt_le, Rdiv_lt_0_compat; lra. }
  destruct (phase_incs_range (two_pi / sample_rate self)
              (after_samples self N) Hk) as [Hlen Hall].
  do 4 eexists. split; [reflexivity |]. split; [| split; [exact Hall |]].
  - rewrite Hlen, (wf_base_freq _ Hwf'), (wf_dphi _ Hwf'), Hn.
    apply Nat.min_id.
  - cbn [_node_phase with_node_phase]. rewrite Hp. reflexivity.
Qed.

End OscillatorRange.

(** X23 at the default engine. *)
Lemma render_oscillator_range_witness :
  exists (self self' : @E8FractalPowerModule lcg) k out incs,
    wf self /\ (0 <= 100)%Z /\ 0 < sample_rate self /\
    render self 100 0.2 = Some (self', k, out) /\
    length incs = Z.to_nat (num_nodes self) /\
    Forall (fun inc => two_pi / sample_rate self * 1 <= inc
                       <= two_pi / sample_rate self * 20000) incs /\
    _node_phase self'
    = map2 (fun p inc => fmod (p + inc * IZR 100) two_pi)
           (_node_phase self) incs.
Proof.
  destruct default_engine as (self & _ & _ & Hsr & _ & _ & Hwf).
  assert (Hsr' : 0 < sample_rate self) by (rewrite Hsr; lra).
  destruct (render_oscillator_range self 100 0.2 Hwf ltac:(lia) Hsr')
    as (self' & k & out & incs & H).
  exists self, self', k, out, incs.
  split; [exact Hwf |]. split; [lia |]. split; [exact Hsr' |]. exact H.
Defined.
